(** * A TCP forwarding proxy (load balancer): model and properties

    The development embeds [main.go]: the configuration loader
    [loadConfig], the backend selector [chooseBackend], the relay [proxy]
    and the listener loop of [main].  The earlier, simpler program of the
    repository (no configuration, no wait group) is embedded in module
    [Legacy].

    Sequential code is embedded as functions.  The two concurrent parts
    (the relay with its two copy goroutines, and the listener loop with
    its signal channel, timer and relay goroutines) are embedded as
    labelled transition systems: a state record, a label for every
    scheduling choice or answer of the environment, and an executable
    step function. *)

From Stdlib Require Import ZArith List String Ascii Bool Lia DecimalString.
From Stdlib Require Init.Byte.
Import ListNotations.

Set Warnings "-register-all".

Local Open Scope string_scope.
Local Open Scope Z_scope.

(* ===================================================================== *)
(** * The Go runtime and library calls the program makes *)
(* ===================================================================== *)

Module Go.

(** A call either yields a value or panics with a message. *)
Inductive Result (A : Type) : Type :=
| Ok (a : A)
| Panic (msg : string).
Arguments Ok {A} a.
Arguments Panic {A} msg.

Definition bind {A B} (r : Result A) (k : A -> Result B) : Result B :=
  match r with
  | Ok a => k a
  | Panic m => Panic m
  end.

(** What a caller could learn about an [error] value with [errors.Is]
    or [net.Error.Timeout]; the program itself never asks. *)
Inductive ErrKind : Type :=
| KClosed        (* net.ErrClosed: use of closed network connection *)
| KTimeout       (* i/o timeout *)
| KRefused       (* connection refused *)
| KUnreachable   (* no route to host, network is unreachable *)
| KNotExist      (* os.ErrNotExist *)
| KPermission    (* os.ErrPermission *)
| KSyntax        (* malformed JSON, or no JSON value at all *)
| KUnmarshalType (* JSON value of the wrong type for its target *)
| KOther.

(** An [error] value: its kind and the text of its [Error()] method. *)
Record error : Type := mkError { err_kind : ErrKind; Error : string }.

(** [fmt.Errorf] with the verbs [%s] and [%v] only: a fresh error that
    carries the formatted text and does not wrap its argument. *)
Definition Errorf (text : string) : error := mkError KOther text.

(** [time.Duration] is a signed 64-bit count of nanoseconds. *)
Definition wrap64 (z : Z) : Z := (z + 2 ^ 63) mod 2 ^ 64 - 2 ^ 63.
Definition Second : Z := 1000000000.
Definition mul_Duration (a b : Z) : Z := wrap64 (a * b).

(** [math/rand]: after [rand.Seed(seed)] the next [rand.Intn(n)] is a
    function of [seed] and [n] alone.  The generator's tables are not
    part of the program; its contract is that the draw lies in
    [[0, n)] for a positive bound. *)
Class Rand : Type := {
  draw : Z -> Z -> Z;
  draw_range : forall seed n, 0 < n -> 0 <= draw seed n < n
}.

(** [rand.Seed(seed); rand.Intn(n)]. *)
Definition rand_Intn `{Rand} (seed n : Z) : Result Z :=
  if n <=? 0 then Panic "invalid argument to Intn" else Ok (draw seed n).

(** [s[i]] on a slice. *)
Definition index {A} (s : list A) (i : Z) : Result A :=
  if (i <? 0) || (Z.of_nat (List.length s) <=? i) then
    Panic "index out of range"
  else
    match nth_error s (Z.to_nat i) with
    | Some a => Ok a
    | None => Panic "index out of range"
    end.

(** ** encoding/json, at the level of parsed values *)

Inductive json : Type :=
| JNull
| JBool (b : bool)
| JInt (z : Z)          (* a number literal without fraction or exponent *)
| JFloat (lit : string) (* any other number literal *)
| JString (s : string)
| JArray (elems : list json)
| JObject (members : list (string * json)).

(** The name of a JSON value's kind, as error texts give it. *)
Definition json_kind (j : json) : string :=
  match j with
  | JNull => "null"
  | JBool _ => "bool"
  | JInt _ | JFloat _ => "number"
  | JString _ => "string"
  | JArray _ => "array"
  | JObject _ => "object"
  end.

Definition lower (c : ascii) : ascii :=
  let n := nat_of_ascii c in
  if (Nat.leb 65 n && Nat.leb n 90)%bool
  then ascii_of_nat (n + 32) else c.

Definition is_byte (c : ascii) (n : nat) : bool :=
  Nat.eqb (nat_of_ascii c) n.

(** Object keys match field names under Unicode simple case folding.
    For ASCII names that is ASCII case folding, plus U+017F (bytes
    C5 BF) for s and U+212A (bytes E2 84 AA) for k. *)
Fixpoint foldName (s : string) : string :=
  match s with
  | EmptyString => EmptyString
  | String c r =>
      match r with
      | String d r' =>
          if (is_byte c 197 && is_byte d 191)%bool
          then String "s" (foldName r')
          else
            match r' with
            | String e r'' =>
                if (is_byte c 226 && is_byte d 132 && is_byte e 170)%bool
                then String "k" (foldName r'')
                else String (lower c) (foldName r)
            | EmptyString => String (lower c) (foldName r)
            end
      | EmptyString => String (lower c) EmptyString
      end
  end.

Definition key_matches (key name : string) : bool :=
  String.eqb (foldName key) (foldName name).

Definition UnmarshalTypeError (value target type : string) : error :=
  mkError KUnmarshalType
    ("json: cannot unmarshal " ++ value ++ " into " ++ target
       ++ " of type " ++ type).

(** The decimal literal of an integer. *)
Definition decimal (z : Z) : string := NilZero.string_of_int (Z.to_int z).

(** The platform's [int] (64 bits). *)
Definition int_min : Z := - 2 ^ 63.
Definition int_max : Z := 2 ^ 63 - 1.

(** A file as [os.Open] and then [json.NewDecoder] see it: the first
    JSON value of its contents, or the error the decoder meets before
    it has read one. *)
Inductive file_body : Type :=
| Malformed (e : error)
| Doc (j : json).

(** The files of the machine: [os.Open name] fails with an error or
    yields a file. *)
Definition FS : Type := string -> error + file_body.

Definition os_Open (fs : FS) (name : string) : error + file_body := fs name.

End Go.

Import Go.

Notation "x <- r ;; k" := (Go.bind r (fun x => k))
  (at level 61, r at next level, right associativity).

(* ===================================================================== *)
(** * Configuration *)
(* ===================================================================== *)

Record Config : Type := mkConfig {
  ListenAddr : string;          (* json:"listenAddr" *)
  Server : list string;         (* json:"server" *)
  ConnectionTimeout : Z         (* json:"connectionTimeout" *)
}.

Definition DefaultListenAddr : string := "localhost:8080".
Definition DefaultServers : list string :=
  ["localhost:5001"; "localhost:5002"; "localhost:5003"].
Definition DefaultConnectionTimeout : Z := 60.
Definition ConfigFile : string := "config.json".

(** The value both branches of [loadConfig] build before anything is
    decoded into it. *)
Definition defaultConfig : Config :=
  mkConfig DefaultListenAddr ([] ++ DefaultServers) DefaultConnectionTimeout.

Inductive Field : Type := FListenAddr | FServer | FConnectionTimeout.

Definition field_name (f : Field) : string :=
  match f with
  | FListenAddr => "listenAddr"
  | FServer => "server"
  | FConnectionTimeout => "connectionTimeout"
  end.

(** The field an object key addresses; keys that match no field are
    skipped by the decoder. *)
Definition field_of_key (key : string) : option Field :=
  if key_matches key (field_name FListenAddr) then Some FListenAddr
  else if key_matches key (field_name FServer) then Some FServer
  else if key_matches key (field_name FConnectionTimeout)
       then Some FConnectionTimeout
  else None.

Definition field_target (f : Field) : string :=
  "Go struct field Config." ++ field_name f.

(** A JSON array decoded into the slots of a backing array: a string
    element is stored in its slot, a null element leaves its slot as it
    is (what [slots] holds at that index, the empty string past its
    end), anything else is a type error. *)
Fixpoint decode_elems (slots : list string) (elems : list json)
  : error + list string :=
  match elems with
  | [] => inr []
  | e :: es =>
      match e with
      | JString s =>
          match decode_elems (tl slots) es with
          | inr l => inr (s :: l)
          | inl err => inl err
          end
      | JNull =>
          match decode_elems (tl slots) es with
          | inr l => inr (hd "" slots :: l)
          | inl err => inl err
          end
      | other =>
          inl (UnmarshalTypeError (json_kind other) (field_target FServer)
                 "string")
      end
  end.

(** The configuration being decoded into, with the backing array of its
    [Server] slice: [Server] is a prefix of [backing]; the slots after
    it are what earlier, longer contents have left there. *)
Record Decoding : Type := mkDecoding {
  decoded : Config;
  backing : list string
}.

(** A JSON array decoded into the [Server] slice: the elements are
    decoded into the backing array from its first slot on and the slice
    is cut to their number, the later slots staying behind it; the empty
    array gives a fresh empty slice. *)
Definition decode_server (st : Decoding) (elems : list json)
  : error + Decoding :=
  match decode_elems (backing st) elems with
  | inl err => inl err
  | inr l =>
      let config :=
        mkConfig (ListenAddr (decoded st)) l
          (ConnectionTimeout (decoded st)) in
      match elems with
      | [] => inr (mkDecoding config [])
      | _ :: _ =>
          inr (mkDecoding config
                 (l ++ skipn (List.length l) (backing st)))
      end
  end.

(** One object member decoded into the configuration. *)
Definition decode_member (st : Decoding) (m : string * json)
  : error + Decoding :=
  let (key, v) := m in
  let config := decoded st in
  match field_of_key key with
  | None => inr st
  | Some FListenAddr =>
      match v with
      | JNull => inr st
      | JString s =>
          inr (mkDecoding
                 (mkConfig s (Server config) (ConnectionTimeout config))
                 (backing st))
      | other =>
          inl (UnmarshalTypeError (json_kind other)
                 (field_target FListenAddr) "string")
      end
  | Some FServer =>
      match v with
      | JNull =>
          (* the slice becomes nil *)
          inr (mkDecoding
                 (mkConfig (ListenAddr config) [] (ConnectionTimeout config))
                 [])
      | JArray elems => decode_server st elems
      | other =>
          inl (UnmarshalTypeError (json_kind other)
                 (field_target FServer) "[]string")
      end
  | Some FConnectionTimeout =>
      match v with
      | JNull => inr st
      | JInt z =>
          if (int_min <=? z) && (z <=? int_max)
          then inr (mkDecoding
                      (mkConfig (ListenAddr config) (Server config) z)
                      (backing st))
          else inl (UnmarshalTypeError ("number " ++ decimal z)
                      (field_target FConnectionTimeout) "int")
      | JFloat lit =>
          inl (UnmarshalTypeError ("number " ++ lit)
                 (field_target FConnectionTimeout) "int")
      | other =>
          inl (UnmarshalTypeError (json_kind other)
                 (field_target FConnectionTimeout) "int")
      end
  end.

Fixpoint decode_members (st : Decoding) (ms : list (string * json))
  : error + Decoding :=
  match ms with
  | [] => inr st
  | m :: rest =>
      match decode_member st m with
      | inr st' => decode_members st' rest
      | inl err => inl err
      end
  end.

(** [json.NewDecoder(file).Decode(config)] for [config : *Config] whose
    [Server] slice fills its backing array, as the slice [loadConfig]
    builds does: the decoded configuration, or the first error. *)
Definition Decode (file : file_body) (config : Config) : error + Config :=
  match file with
  | Malformed err => inl err
  | Doc JNull => inr config
  | Doc (JObject ms) =>
      match decode_members (mkDecoding config (Server config)) ms with
      | inr st => inr (decoded st)
      | inl err => inl err
      end
  | Doc other =>
      inl (UnmarshalTypeError (json_kind other) "Go value" "main.Config")
  end.

(** [loadConfig]: the pair of results, a nil pointer as [None] and a nil
    error as [None]. *)
Definition loadConfig (fs : FS) (filename : string)
  : option Config * option error :=
  match os_Open fs filename with
  | inl _ =>
      (* Use default values if the file is not present *)
      (Some (mkConfig DefaultListenAddr ([] ++ DefaultServers)
               DefaultConnectionTimeout),
       None)
  | inr file =>
      let config :=
        mkConfig DefaultListenAddr ([] ++ DefaultServers)
          DefaultConnectionTimeout in
      match Decode file config with
      | inl err =>
          (None,
           Some (Errorf ("failed to decode configuration: " ++ Error err)))
      | inr config' => (Some config', None)
      end
  end.

(* ===================================================================== *)
(** * Backend selection *)
(* ===================================================================== *)

(** [chooseBackend]: [now] is the reading of [time.Now().UnixNano()]
    that seeds the generator. *)
Definition chooseBackend `{Rand} (now : Z) (servers : list string)
  : Result string :=
  i <- rand_Intn now (Z.of_nat (List.length servers)) ;;
  index servers i.

(* ===================================================================== *)
(** * What the program does to the outside, in order *)
(* ===================================================================== *)

(** The newline that ends a printed line. *)
Definition nl : string := String (ascii_of_nat 10) EmptyString.

(** A connection, as far as the program looks at it. *)
Record Conn : Type := mkConn { RemoteAddr : string }.

Inductive Dir : Type :=
| ClientToBackend   (* io.Copy(bc, c) *)
| BackendToClient.  (* io.Copy(c, bc) *)

(** A dial; [dial_timeout] is in nanoseconds, [None] for a dial without
    one. *)
Record DialReq : Type := mkDial {
  dial_network : string;
  dial_address : string;
  dial_timeout : option Z
}.

Inductive Effect : Type :=
| EDial (req : DialReq)
| ESpawnCopy (d : Dir)                       (* go func() { io.Copy ... } *)
| EForward (d : Dir) (bytes : list Byte.byte) (* bytes written to the sink *)
| ELog (msg : string)          (* log.Printf, log.Println: the message *)
| EPrint (line : string)                     (* fmt.Printf, fmt.Println *)
| ECloseBackend                              (* bc.Close() *)
| ECloseClient                               (* c.Close() *)
| EReturn (err : option error).              (* proxy returns to its caller *)

(** The bytes a list of effects forwarded in direction [d]. *)
Fixpoint forwarded (d : Dir) (t : list Effect) : list Byte.byte :=
  match t with
  | [] => []
  | EForward ClientToBackend bytes :: t' =>
      match d with
      | ClientToBackend => bytes ++ forwarded d t'
      | BackendToClient => forwarded d t'
      end
  | EForward BackendToClient bytes :: t' =>
      match d with
      | ClientToBackend => forwarded d t'
      | BackendToClient => bytes ++ forwarded d t'
      end
  | _ :: t' => forwarded d t'
  end.

(* ===================================================================== *)
(** * The relay: [proxy] and its two copy goroutines *)
(* ===================================================================== *)

Inductive ProxyPc : Type :=
| AtDial                          (* before net.DialTimeout *)
| AtWait                          (* blocked in wg.Wait() *)
| Returned (err : option error)   (* proxy has returned err *)
| Crashed (msg : string).         (* a goroutine panicked *)

Record ProxyState : Type := mkProxy {
  pc : ProxyPc;
  client_open : bool;    (* c has not been closed by the proxy *)
  backend_open : bool;   (* bc exists and has not been closed *)
  wg : Z;                (* the relay's sync.WaitGroup counter *)
  c2b_running : bool;    (* the client-to-backend goroutine is in io.Copy *)
  b2c_running : bool;    (* the backend-to-client goroutine is in io.Copy *)
  trace : list Effect    (* effects so far, oldest first *)
}.

(** What moves next, and what the network answers. *)
Inductive Label : Type :=
| LDial (r : option error)
    (* net.DialTimeout returns: None is a connection *)
| LCopy (d : Dir) (bytes : list Byte.byte)
    (* io.Copy in direction d reads a chunk and writes it *)
| LCopyRet (d : Dir) (r : option error)
    (* io.Copy in direction d returns r; the goroutine logs and ends *)
| LJoin.
    (* wg.Wait() returns; proxy runs to its end *)

Definition proxy_init : ProxyState :=
  mkProxy AtDial true false 0 false false [].

Definition running (d : Dir) (s : ProxyState) : bool :=
  match d with
  | ClientToBackend => c2b_running s
  | BackendToClient => b2c_running s
  end.

Definition copy_failed (d : Dir) (err : error) : string :=
  match d with
  | ClientToBackend =>
      "failed to copy from client to backend: " ++ Error err
  | BackendToClient =>
      "failed to copy from backend to client: " ++ Error err
  end.

Definition dial_failed (backend : string) (err : error) : error :=
  Errorf ("failed to connect to backend " ++ backend ++ ": " ++ Error err).

Definition closed_line (c : Conn) (backend : string) : string :=
  "Connection from " ++ RemoteAddr c ++ " closed. Proxying to "
    ++ backend ++ " terminated." ++ nl.

(** The dial timeout [proxy] passes to [net.DialTimeout]. *)
Definition proxy_dial_timeout : Z := mul_Duration Second 5.

(** One step of [proxy backend c].  [None]: the label cannot move in
    this state. *)
Definition proxy_step (backend : string) (c : Conn) (l : Label)
  (s : ProxyState) : option ProxyState :=
  match l, pc s with
  | LDial r, AtDial =>
      let req := mkDial "tcp" backend (Some proxy_dial_timeout) in
      match r with
      | Some err =>
          (* return the error; the deferred c.Close() runs *)
          let e := dial_failed backend err in
          Some (mkProxy (Returned (Some e)) false (backend_open s) (wg s)
                  (c2b_running s) (b2c_running s)
                  (trace s ++ [EDial req; ECloseClient; EReturn (Some e)]))
      | None =>
          (* wg.Add(2); both goroutines start; wg.Wait() *)
          Some (mkProxy AtWait (client_open s) true (wg s + 2) true true
                  (trace s ++ [EDial req; ESpawnCopy ClientToBackend;
                               ESpawnCopy BackendToClient]))
      end
  | LCopy d bytes, AtWait =>
      if running d s && client_open s && backend_open s then
        Some (mkProxy (pc s) (client_open s) (backend_open s) (wg s)
                (c2b_running s) (b2c_running s)
                (trace s ++ [EForward d bytes]))
      else None
  | LCopyRet d r, AtWait =>
      if running d s then
        let logged :=
          match r with
          | Some err => [ELog (copy_failed d err)]
          | None => []
          end in
        (* the deferred wg.Done() *)
        let pc' :=
          if wg s - 1 <? 0
          then Crashed "sync: negative WaitGroup counter"
          else pc s in
        Some (mkProxy pc' (client_open s) (backend_open s) (wg s - 1)
                (match d with ClientToBackend => false
                            | BackendToClient => c2b_running s end)
                (match d with ClientToBackend => b2c_running s
                            | BackendToClient => false end)
                (trace s ++ logged))
      else None
  | LJoin, AtWait =>
      if wg s =? 0 then
        (* print, return nil; deferred bc.Close() then c.Close() run *)
        Some (mkProxy (Returned None) false false (wg s)
                (c2b_running s) (b2c_running s)
                (trace s ++ [EPrint (closed_line c backend); ECloseBackend;
                             ECloseClient; EReturn None]))
      else None
  | _, _ => None
  end.

(** A schedule run from a state; [None] as soon as a label cannot move. *)
Fixpoint proxy_run (backend : string) (c : Conn) (ls : list Label)
  (s : ProxyState) : option ProxyState :=
  match ls with
  | [] => Some s
  | l :: ls' =>
      match proxy_step backend c l s with
      | Some s' => proxy_run backend c ls' s'
      | None => None
      end
  end.

(** [proxy backend c] under a schedule. *)
Definition proxy (backend : string) (c : Conn) (ls : list Label)
  : option ProxyState :=
  proxy_run backend c ls proxy_init.

(* ===================================================================== *)
(** * The listener loop: [main] *)
(* ===================================================================== *)

Inductive Signal : Type := SIGINT | SIGTERM.

Inductive MainPc : Type :=
| AtAccept             (* in the for loop, blocked in listener.Accept() *)
| AtSelect             (* at the select that follows the for loop *)
| AtDeferWait          (* returning from main: the deferred wg.Wait() *)
| Exited (code : Z)    (* main returned: the process has exited *)
| Panicking (msg : string)
                       (* main panicked: the deferred timeoutTimer.Stop()
                          has run, the deferred wg.Wait() has not returned *)
| Panicked (msg : string).
                       (* the deferred calls are done: the process died *)

Record MainState : Type := mkMain {
  m_pc : MainPc;
  listener_open : bool;          (* listener.Close() has not run *)
  sig_chan : option Signal;      (* sig, a channel of capacity 1 *)
  timer_armed : bool;            (* timeoutTimer is running *)
  timer_chan : bool;             (* a tick waits in timeoutTimer.C *)
  timer_d : Z;                   (* duration of the last NewTimer or Reset *)
  m_wg : Z;                      (* main's sync.WaitGroup counter *)
  relays : list (string * Conn); (* every go proxy(backend, conn) so far *)
  out : list Effect              (* lines logged and printed, oldest first *)
}.

Inductive Event : Type :=
| EvAccept (r : error + Conn) (now : Z)
    (* listener.Accept() returns r; now is the clock chooseBackend reads *)
| EvSignal (sg : Signal)
    (* the runtime delivers an interrupt or terminate signal *)
| EvTimer
    (* timeoutTimer expires *)
| EvRelayDone (err : option error)
    (* a relay goroutine: proxy returned err; it logs and calls wg.Done() *)
| EvSelect (prefer_signal : bool)
    (* the main goroutine moves on from the select, or from a deferred
       wg.Wait() *).

Definition timeout_of (config : Config) : Z :=
  mul_Duration Second (ConnectionTimeout config).

Definition main_init (config : Config) : MainState :=
  mkMain AtAccept true None true false (timeout_of config) 0 []
    [EPrint ("Proxy server is listening on " ++ ListenAddr config ++ nl);
     EPrint ("Proxy server is ready to accept connections." ++ nl)].

Definition handling_line (c : Conn) (backend : string) : string :=
  "Handling connection from " ++ RemoteAddr c
    ++ ". Proxying to backend: " ++ backend ++ nl.

(** The body of the for loop once [listener.Accept()] has returned. *)
Definition accept_body `{Rand} (config : Config) (r : error + Conn)
  (now : Z) (s : MainState) : MainState :=
  match r with
  | inl err =>
      (* log, continue *)
      mkMain AtAccept (listener_open s) (sig_chan s) (timer_armed s)
        (timer_chan s) (timer_d s) (m_wg s) (relays s)
        (out s ++ [ELog ("failed to accept connection: " ++ Error err)])
  | inr conn =>
      match chooseBackend now (Server config) with
      | Panic msg =>
          (* the panic unwinds main: its deferred calls run, last first *)
          mkMain (Panicking msg) (listener_open s) (sig_chan s)
            false (timer_chan s) (timer_d s) (m_wg s) (relays s)
            (out s)
      | Ok backend =>
          (* wg.Add(1); print; go proxy(backend, conn); the timer is
             reset, a tick already in its channel stays there *)
          mkMain AtAccept (listener_open s) (sig_chan s) true
            (timer_chan s) (timeout_of config) (m_wg s + 1)
            (relays s ++ [(backend, conn)])
            (out s ++ [EPrint (handling_line conn backend)])
      end
  end.

(** The select statement that follows the for loop, and the deferred
    [wg.Wait()] and [listener.Close()] of [main], which run when [main]
    returns and when it panics.  The for loop has no break and no return:
    no step of the loop leads to the select. *)
Definition after_loop (prefer_signal : bool) (s : MainState)
  : option MainState :=
  match m_pc s with
  | AtSelect =>
      let leave (line : string) (sg : option Signal) (tick : bool) :=
        (* return; the deferred timeoutTimer.Stop() runs first *)
        Some (mkMain AtDeferWait (listener_open s) sg false tick
                (timer_d s) (m_wg s) (relays s) (out s ++ [ELog line])) in
      match sig_chan s, timer_chan s with
      | Some _, false => leave "Shutting down..." None false
      | None, true =>
          leave "Connection timeout reached. Shutting down..." None false
      | Some sg, true =>
          if prefer_signal
          then leave "Shutting down..." None true
          else leave "Connection timeout reached. Shutting down..."
                 (Some sg) false
      | None, false => None
      end
  | AtDeferWait =>
      if m_wg s =? 0 then
        (* the deferred listener.Close(), then the process exits *)
        Some (mkMain (Exited 0) false (sig_chan s) (timer_armed s)
                (timer_chan s) (timer_d s) (m_wg s) (relays s) (out s))
      else None
  | Panicking msg =>
      if m_wg s =? 0 then
        (* the deferred listener.Close(), then the process dies *)
        Some (mkMain (Panicked msg) false (sig_chan s) (timer_armed s)
                (timer_chan s) (timer_d s) (m_wg s) (relays s) (out s))
      else None
  | _ => None
  end.

(** [listener.Accept()] fails with the closed-listener error exactly
    when the listener has been closed. *)
Definition accept_can_fail_with (err : error) (s : MainState) : bool :=
  match err_kind err with
  | KClosed => negb (listener_open s)
  | _ => listener_open s
  end.

(** One step of the process once [main] has set up its listener. *)
Definition main_step `{Rand} (config : Config) (ev : Event) (s : MainState)
  : option MainState :=
  match m_pc s with
  | Exited _ | Panicked _ => None
  | _ =>
      match ev with
      | EvAccept r now =>
          match m_pc s, r with
          | AtAccept, inl err =>
              if accept_can_fail_with err s
              then Some (accept_body config r now s)
              else None
          | AtAccept, inr _ =>
              if listener_open s then Some (accept_body config r now s)
              else None
          | _, _ => None
          end
      | EvSignal sg =>
          (* signal.Notify never blocks: a full channel drops the signal *)
          Some (mkMain (m_pc s) (listener_open s)
                  (match sig_chan s with Some old => Some old
                                       | None => Some sg end)
                  (timer_armed s) (timer_chan s) (timer_d s) (m_wg s)
                  (relays s) (out s))
      | EvTimer =>
          if timer_armed s then
            Some (mkMain (m_pc s) (listener_open s) (sig_chan s) false true
                    (timer_d s) (m_wg s) (relays s) (out s))
          else None
      | EvRelayDone err =>
          if 0 <? m_wg s then
            Some (mkMain (m_pc s) (listener_open s) (sig_chan s)
                    (timer_armed s) (timer_chan s) (timer_d s) (m_wg s - 1)
                    (relays s)
                    (out s ++
                       match err with
                       | Some e => [ELog ("failed to proxy: " ++ Error e)]
                       | None => []
                       end))
          else None
      | EvSelect prefer_signal => after_loop prefer_signal s
      end
  end.

Fixpoint main_run `{Rand} (config : Config) (evs : list Event)
  (s : MainState) : option MainState :=
  match evs with
  | [] => Some s
  | ev :: evs' =>
      match main_step config ev s with
      | Some s' => main_run config evs' s'
      | None => None
      end
  end.

(** [main] up to its for loop: a fatal error, or a listener that serves
    the loaded configuration. *)
Inductive Boot : Type :=
| Fatal (msg : string)                    (* log.Fatalf: exit status 1 *)
| NilConfig                               (* config is nil: a panic *)
| Serving (config : Config) (s : MainState).

(** [listen] is what [net.Listen] answers for the configured address. *)
Definition main_boot (fs : FS) (listen : option error) : Boot :=
  match loadConfig fs ConfigFile with
  | (_, Some err) => Fatal ("failed to load configuration: " ++ Error err)
  | (None, None) => NilConfig
  | (Some config, None) =>
      match listen with
      | Some err => Fatal ("failed to listen: " ++ Error err)
      | None => Serving config (main_init config)
      end
  end.

(* ===================================================================== *)
(** * The earlier program of the repository *)
(* ===================================================================== *)

Module Legacy.

Definition listenAddr : string := "localhost:8080".
Definition server : list string :=
  ["localhost:5001"; "localhost:5002"; "localhost:5003"].

(** [chooseBackend]: [server[0]], under a note to choose randomly. *)
Definition chooseBackend : Result string := index server 0.

Record ProxyState : Type := mkProxy {
  pc : ProxyPc;
  backend_open : bool;
  c2b_running : bool;
  b2c_running : bool;
  trace : list Effect
}.

Definition proxy_init : ProxyState := mkProxy AtDial false false false [].

Definition running (d : Dir) (s : ProxyState) : bool :=
  match d with
  | ClientToBackend => c2b_running s
  | BackendToClient => b2c_running s
  end.

Definition stop (d : Dir) (s : ProxyState) : ProxyState :=
  mkProxy (pc s) (backend_open s)
    (match d with ClientToBackend => false
                | BackendToClient => c2b_running s end)
    (match d with ClientToBackend => b2c_running s
                | BackendToClient => false end)
    (trace s).

(** One step of [proxy backend c] for an accepted connection [c].
    The dial has no timeout, nothing is closed, and the copy
    goroutines outlive the call. *)
Definition proxy_step (backend : string) (c : Conn) (l : Label)
  (s : ProxyState) : option ProxyState :=
  match l with
  | LDial r =>
      match pc s with
      | AtDial =>
          let req := mkDial "tcp" backend None in
          match r with
          | Some err =>
              let e := dial_failed backend err in
              Some (mkProxy (Returned (Some e)) false false false
                      (trace s ++ [EDial req; EReturn (Some e)]))
          | None =>
              Some (mkProxy (Returned None) true true true
                      (trace s ++ [EDial req;
                                   ESpawnCopy ClientToBackend;
                                   ESpawnCopy BackendToClient;
                                   EReturn None]))
          end
      | _ => None
      end
  | LCopy d bytes =>
      if running d s then
        Some (mkProxy (pc s) (backend_open s) (c2b_running s)
                (b2c_running s) (trace s ++ [EForward d bytes]))
      else None
  | LCopyRet d _ =>
      (* the result of io.Copy is dropped *)
      if running d s then Some (stop d s) else None
  | LJoin => None
  end.

Fixpoint proxy_run (backend : string) (c : Conn) (ls : list Label)
  (s : ProxyState) : option ProxyState :=
  match ls with
  | [] => Some s
  | l :: ls' =>
      match proxy_step backend c l s with
      | Some s' => proxy_run backend c ls' s'
      | None => None
      end
  end.

(** Where a relay goroutine started by the loop stands. *)
Inductive RelayStatus : Type :=
| Dialling      (* proxy is in net.Dial *)
| DialFailed    (* proxy returned the dial error; the goroutine logged it *)
| Copying.      (* proxy started the two copies and returned nil *)

(** A relay goroutine: [proxy(backend, conn)], with [None] for the nil
    connection a failed accept leaves in [conn]. *)
Record Relay : Type := mkRelay {
  r_backend : string;
  r_conn : option Conn;
  r_status : RelayStatus
}.

(** The process: every relay goroutine the loop has started, the lines
    logged, and the panic the process has died of, if any. *)
Record MainState : Type := mkMain {
  relays : list Relay;
  out : list Effect;
  panicked : option string
}.

Definition main_init : MainState := mkMain [] [] None.

(** The body of the for loop once [listener.Accept()] has returned.
    There is no continue after the log: a failed accept goes on to start
    a relay, with the nil connection. *)
Definition accept_body (r : error + Conn) (s : MainState) : MainState :=
  let logged :=
    match r with
    | inl err => [ELog ("failed to accept connection: " ++ Error err)]
    | inr _ => []
    end in
  let conn := match r with inl _ => None | inr c => Some c end in
  match chooseBackend with
  | Panic msg => mkMain (relays s) (out s ++ logged) (Some msg)
  | Ok backend =>
      mkMain (relays s ++ [mkRelay backend conn Dialling]) (out s ++ logged)
        None
  end.

Inductive Event : Type :=
| LvAccept (r : error + Conn)
    (* listener.Accept() returns r *)
| LvDial (i : nat) (r : option error)
    (* net.Dial in the i-th relay returns r: None is a connection *)
| LvCopy (i : nat).
    (* the goroutine of io.Copy(bc, c) in the i-th relay runs *)

Fixpoint set_status (i : nat) (st : RelayStatus) (l : list Relay)
  : list Relay :=
  match l, i with
  | [], _ => []
  | rl :: l', O => mkRelay (r_backend rl) (r_conn rl) st :: l'
  | rl :: l', S i' => rl :: set_status i' st l'
  end.

(** The panic of a method call on a nil interface value. *)
Definition nil_dereference : string :=
  "runtime error: invalid memory address or nil pointer dereference".

(** One step of the process.  A relay whose dial fails returns the
    error, which its goroutine logs.  A relay whose dial succeeds starts
    its copies; when its connection is the nil one, [io.Copy(bc, c)]
    calls [Read] on it and the panic kills the process.  The copies of a
    relay with an accepted connection are those of [proxy_step]; they
    change nothing here. *)
Definition main_step (ev : Event) (s : MainState) : option MainState :=
  match panicked s with
  | Some _ => None
  | None =>
      match ev with
      | LvAccept r => Some (accept_body r s)
      | LvDial i r =>
          match nth_error (relays s) i with
          | Some rl =>
              match r_status rl, r with
              | Dialling, Some err =>
                  Some (mkMain (set_status i DialFailed (relays s))
                          (out s ++
                             [ELog ("failed to proxy: "
                                      ++ Error (dial_failed (r_backend rl)
                                                  err))])
                          None)
              | Dialling, None =>
                  Some (mkMain (set_status i Copying (relays s)) (out s)
                          None)
              | _, _ => None
              end
          | None => None
          end
      | LvCopy i =>
          match nth_error (relays s) i with
          | Some rl =>
              match r_status rl, r_conn rl with
              | Copying, None =>
                  Some (mkMain (relays s) (out s) (Some nil_dereference))
              | _, _ => None
              end
          | None => None
          end
      end
  end.

Fixpoint main_run (evs : list Event) (s : MainState) : option MainState :=
  match evs with
  | [] => Some s
  | ev :: evs' =>
      match main_step ev s with
      | Some s' => main_run evs' s'
      | None => None
      end
  end.

(** The answers of [listener.Accept()] in an event sequence. *)
Fixpoint answers (evs : list Event) : list (error + Conn) :=
  match evs with
  | [] => []
  | LvAccept r :: evs' => r :: answers evs'
  | _ :: evs' => answers evs'
  end.

(** The relay the loop starts for an answer of [listener.Accept()]. *)
Definition started (r : error + Conn) : string * option Conn :=
  ("localhost:5001", match r with inl _ => None | inr conn => Some conn end).

End Legacy.

(* ===================================================================== *)
(** * Invariants and schedules used in the statements *)
(* ===================================================================== *)

(** Effects other than a close or a return. *)
Definition quiet_effect (e : Effect) : Prop :=
  match e with
  | ECloseBackend | ECloseClient | EReturn _ => False
  | _ => True
  end.

Definition quiet (t : list Effect) : Prop := Forall quiet_effect t.

Definition count_running (s : ProxyState) : Z :=
  (if c2b_running s then 1 else 0) + (if b2c_running s then 1 else 0).

(** The last effects of a relay whose dial succeeded. *)
Definition teardown (backend : string) (c : Conn) : list Effect :=
  [EPrint (closed_line c backend); ECloseBackend; ECloseClient; EReturn None].

(** What holds in every state [proxy backend c] reaches. *)
Definition proxy_inv (backend : string) (c : Conn) (s : ProxyState) : Prop :=
  match pc s with
  | AtDial => s = proxy_init
  | AtWait =>
      client_open s = true /\ backend_open s = true
      /\ wg s = count_running s /\ quiet (trace s)
  | Returned None =>
      client_open s = false /\ backend_open s = false
      /\ c2b_running s = false /\ b2c_running s = false
      /\ exists t, trace s = (t ++ teardown backend c)%list /\ quiet t
  | Returned (Some e) =>
      client_open s = false /\ backend_open s = false
      /\ c2b_running s = false /\ b2c_running s = false
      /\ exists err,
          e = dial_failed backend err
          /\ trace s = [EDial (mkDial "tcp" backend (Some proxy_dial_timeout));
                        ECloseClient; EReturn (Some e)]
  | Crashed _ => False
  end.

(** Once the dial has succeeded the relay waits or has returned nil. *)
Definition dialled (s : ProxyState) : Prop :=
  pc s = AtWait \/ pc s = Returned None.

(** The schedule that lets every running copy return and then lets
    the relay pass its wait. *)
Definition finish (s : ProxyState) (r1 r2 : option error) : list Label :=
  ((if c2b_running s then [LCopyRet ClientToBackend r1] else [])
     ++ (if b2c_running s then [LCopyRet BackendToClient r2] else [])
     ++ [LJoin])%list.

(** The loop is at its accept with the listener open; or the server
    list is empty and the process has panicked in the selector. *)
Definition in_loop (config : Config) (s : MainState) : Prop :=
  (m_pc s = AtAccept /\ listener_open s = true)
  \/ (Server config = []
      /\ exists msg, m_pc s = Panicking msg \/ m_pc s = Panicked msg).

(* ===================================================================== *)
(** * Sample inputs *)
(* ===================================================================== *)

(** A generator that meets the contract of [Rand]: the seed reduced
    modulo the bound.  It stands in for [math/rand] in the examples. *)
Definition modRand : Rand :=
  Build_Rand (fun seed n => seed mod n)
    (fun seed n Hn => Z.mod_pos_bound seed n Hn).

Definition sampleConn : Conn := mkConn "192.0.2.7:51234".

Definition noFile : error :=
  mkError KNotExist "open config.json: no such file or directory".


Definition tooManyFiles : error :=
  mkError KOther "accept tcp 127.0.0.1:8080: accept4: too many open files".

Definition refused : error :=
  mkError KRefused "dial tcp 127.0.0.1:5001: connect: connection refused".

Definition resetByPeer : error :=
  mkError KOther "read tcp 127.0.0.1:8080: connection reset by peer".

(** One accepted connection, then an interrupt, the timer running out,
    a terminate signal, and the relay finishing. *)
Definition sampleEvents : list Event :=
  [EvAccept (inr sampleConn) 1700000000000000001;
   EvSignal SIGINT; EvTimer; EvSignal SIGTERM; EvRelayDone None].

Definition sampleRun : option MainState :=
  Eval vm_compute in
    @main_run modRand defaultConfig sampleEvents (main_init defaultConfig).

(** A machine without any file. *)
Definition emptyFS : FS := fun _ => inl noFile.

(** A machine whose [config.json] declares an empty server array. *)
Definition emptyServersFS : FS :=
  fun name =>
    if String.eqb name ConfigFile
    then inr (Doc (JObject [("server", JArray [])]))
    else inl noFile.

(* ===================================================================== *)
(** * Readings of schedules, event sequences and files *)
(* ===================================================================== *)

(** The connections an event sequence has [listener.Accept()] return. *)
Fixpoint accepted (evs : list Event) : list Conn :=
  match evs with
  | [] => []
  | EvAccept (inr conn) _ :: evs' => conn :: accepted evs'
  | _ :: evs' => accepted evs'
  end.

(** The number of relay goroutines an event sequence lets finish. *)
Fixpoint finished (evs : list Event) : nat :=
  match evs with
  | [] => O
  | EvRelayDone _ :: evs' => S (finished evs')
  | _ :: evs' => finished evs'
  end.

(** The first signal an event sequence delivers. *)
Fixpoint first_signal (evs : list Event) : option Signal :=
  match evs with
  | [] => None
  | EvSignal sg :: _ => Some sg
  | _ :: evs' => first_signal evs'
  end.

(** Effects of the copy goroutines: bytes forwarded and errors logged. *)
Definition copying_effect (e : Effect) : Prop :=
  match e with
  | EForward _ _ | ELog _ => True
  | _ => False
  end.

(** The first effects of a relay whose dial succeeded. *)
Definition opening (backend : string) : list Effect :=
  [EDial (mkDial "tcp" backend (Some proxy_dial_timeout));
   ESpawnCopy ClientToBackend; ESpawnCopy BackendToClient].

(** The shape of the trace in every state [proxy backend c] reaches. *)
Definition proxy_shape (backend : string) (c : Conn) (s : ProxyState)
  : Prop :=
  match pc s with
  | AtDial => trace s = []
  | AtWait =>
      exists mid,
        trace s = (opening backend ++ mid)%list /\ Forall copying_effect mid
  | Returned None =>
      exists mid,
        trace s = (opening backend ++ mid ++ teardown backend c)%list
        /\ Forall copying_effect mid
  | Returned (Some _) => True
  | Crashed _ => True
  end.

(** A forwarded chunk. *)
Definition forward_effect (e : Effect) : Prop :=
  match e with
  | EForward _ _ => True
  | _ => False
  end.

(** The shape of the trace in every state the earlier [proxy] reaches. *)
Definition legacy_shape (backend : string) (s : Legacy.ProxyState) : Prop :=
  s = Legacy.proxy_init
  \/ (exists err,
        Legacy.pc s = Returned (Some (dial_failed backend err))
        /\ Legacy.trace s
           = [EDial (mkDial "tcp" backend None);
              EReturn (Some (dial_failed backend err))]
        /\ Legacy.c2b_running s = false /\ Legacy.b2c_running s = false)
  \/ (exists mid,
        Legacy.pc s = Returned None
        /\ Legacy.trace s
           = ([EDial (mkDial "tcp" backend None);
               ESpawnCopy ClientToBackend; ESpawnCopy BackendToClient;
               EReturn None] ++ mid)%list
        /\ Forall forward_effect mid).

(** An object has a member whose key addresses field [f]. *)
Definition mentions (f : Field) (ms : list (string * json)) : Prop :=
  exists k v, In (k, v) ms /\ field_of_key k = Some f.

(** A machine whose [config.json] is cut off in the middle. *)
Definition truncatedFS : FS :=
  fun name =>
    if String.eqb name ConfigFile
    then inr (Malformed (mkError KSyntax "unexpected EOF"))
    else inl noFile.

(* ===================================================================== *)
(** * Properties of the configuration loader and the selector *)
(* ===================================================================== *)

Section Selector.

Context `{R : Rand}.

Lemma rand_Intn_positive (seed n : Z) :
  0 < n -> rand_Intn seed n = Ok (draw seed n).
Proof.
  intros Hn. unfold rand_Intn.
  destruct (Z.leb_spec n 0) as [Hle | _]; [lia | reflexivity].
Qed.

Lemma index_in_range {A} (l : list A) (i : Z) :
  0 <= i < Z.of_nat (List.length l) ->
  exists a, index l i = Ok a /\ nth_error l (Z.to_nat i) = Some a.
Proof.
  intros [Hlo Hhi]. unfold index.
  destruct (Z.ltb_spec i 0) as [Hneg | _]; [lia |].
  destruct (Z.leb_spec (Z.of_nat (List.length l)) i) as [Hbig | _]; [lia |].
  cbn [orb].
  destruct (nth_error l (Z.to_nat i)) as [a |] eqn:Hnth.
  - exists a. split; reflexivity.
  - apply nth_error_None in Hnth. lia.
Qed.

Lemma length_positive {A} (l : list A) :
  l <> [] -> 0 < Z.of_nat (List.length l).
Proof. destruct l; [congruence | cbn [List.length]; lia]. Qed.

(** On a non-empty list the selector returns the element at the drawn
    index. *)
Lemma chooseBackend_nth (now : Z) (servers : list string) :
  servers <> [] ->
  exists b,
    chooseBackend now servers = Ok b
    /\ nth_error servers
         (Z.to_nat (draw now (Z.of_nat (List.length servers)))) = Some b.
Proof.
  intros Hne. pose proof (length_positive servers Hne) as Hlen.
  unfold chooseBackend. rewrite (rand_Intn_positive _ _ Hlen).
  cbn [Go.bind].
  apply index_in_range. apply draw_range. exact Hlen.
Qed.

Lemma chooseBackend_empty (now : Z) :
  chooseBackend now [] = Panic "invalid argument to Intn".
Proof. reflexivity. Qed.

End Selector.

(** The loader on sample files. *)
Example field_of_key_folds_case :
  field_of_key "SERVER" = Some FServer
  /\ field_of_key "ListenAddr" = Some FListenAddr
  /\ field_of_key "connectiontimeout" = Some FConnectionTimeout
  /\ field_of_key "servers" = None.
Proof. repeat split. Qed.

Example loadConfig_full_file :
  loadConfig
    (fun _ =>
       inr (Doc (JObject [("listenAddr", JString "0.0.0.0:9000");
                          ("server", JArray [JString "10.0.0.1:80";
                                             JString "10.0.0.2:80"]);
                          ("connectionTimeout", JInt 5);
                          ("comment", JBool true)])))
    ConfigFile
  = (Some (mkConfig "0.0.0.0:9000" ["10.0.0.1:80"; "10.0.0.2:80"] 5), None).
Proof. reflexivity. Qed.

Example loadConfig_partial_file :
  loadConfig (fun _ => inr (Doc (JObject [("connectionTimeout", JInt 5)])))
    ConfigFile
  = (Some (mkConfig "localhost:8080"
             ["localhost:5001"; "localhost:5002"; "localhost:5003"] 5),
     None).
Proof. reflexivity. Qed.

Example loadConfig_wrong_type :
  loadConfig (fun _ => inr (Doc (JObject [("server", JString "10.0.0.1:80")])))
    ConfigFile
  = (None,
     Some (Errorf
             ("failed to decode configuration: json: cannot unmarshal string"
                ++ " into Go struct field Config.server of type []string"))).
Proof. reflexivity. Qed.

Example loadConfig_null_element :
  loadConfig
    (fun _ => inr (Doc (JObject [("server", JArray [JString "a"; JNull])])))
    ConfigFile
  = (Some (mkConfig "localhost:8080" ["a"; "localhost:5002"] 60), None).
Proof. reflexivity. Qed.

Example loadConfig_repeated_member :
  loadConfig
    (fun _ =>
       inr (Doc (JObject [("server", JArray [JString "x"]);
                          ("server", JArray [JString "a"; JNull])])))
    ConfigFile
  = (Some (mkConfig "localhost:8080" ["a"; "localhost:5002"] 60), None).
Proof. reflexivity. Qed.

(** C6.  For every non-empty sequence of backend addresses the selector
    returns, without panicking, an address that is a member of the
    sequence. *)
Theorem chooseBackend_member `{R : Rand} (now : Z) (servers : list string) :
  servers <> [] ->
  exists b, chooseBackend now servers = Ok b /\ In b servers.
Proof.
  intros Hne.
  destruct (chooseBackend_nth now servers Hne) as (b & Hb & Hnth).
  exists b. split; [exact Hb |].
  eapply nth_error_In. exact Hnth.
Qed.

Lemma chooseBackend_member_witness :
  DefaultServers <> []
  /\ exists b,
       @chooseBackend modRand 1700000000000000007 DefaultServers = Ok b
       /\ In b DefaultServers.
Proof.
  assert (Hne : DefaultServers <> []) by (unfold DefaultServers; congruence).
  split; [exact Hne |].
  exact (@chooseBackend_member modRand 1700000000000000007 DefaultServers Hne).
Defined.

(** Two draws that differ select two different members of a list
    without repetitions. *)
Lemma chooseBackend_follows_draw `{R : Rand} (servers : list string)
  (t1 t2 : Z) :
  NoDup servers ->
  servers <> [] ->
  draw t1 (Z.of_nat (List.length servers))
    <> draw t2 (Z.of_nat (List.length servers)) ->
  chooseBackend t1 servers <> chooseBackend t2 servers.
Proof.
  intros Hnd Hne Hdiff Heq.
  pose proof (length_positive servers Hne) as Hlen.
  destruct (chooseBackend_nth t1 servers Hne) as (b1 & Hb1 & Hn1).
  destruct (chooseBackend_nth t2 servers Hne) as (b2 & Hb2 & Hn2).
  rewrite Hb1, Hb2 in Heq. injection Heq as Heq. subst b2.
  pose proof (draw_range t1 _ Hlen) as Hr1.
  pose proof (draw_range t2 _ Hlen) as Hr2.
  assert (Hidx :
    Z.to_nat (draw t1 (Z.of_nat (List.length servers)))
    = Z.to_nat (draw t2 (Z.of_nat (List.length servers)))).
  { eapply (proj1 (NoDup_nth_error servers) Hnd).
    - lia.
    - rewrite Hn1, Hn2. reflexivity. }
  apply Hdiff. lia.
Qed.

(** C4.  The selector is not static: on a set of at least two backends
    (a list without repetitions), as soon as the seeded generator has two
    different draws at that bound, two calls return different elements,
    and some call returns an element other than the one at index 0. *)
Theorem chooseBackend_not_static `{R : Rand} (servers : list string) :
  NoDup servers ->
  (2 <= List.length servers)%nat ->
  (exists t1 t2,
      draw t1 (Z.of_nat (List.length servers))
        <> draw t2 (Z.of_nat (List.length servers))) ->
  (exists t1 t2, chooseBackend t1 servers <> chooseBackend t2 servers)
  /\ (exists t, chooseBackend t servers <> index servers 0).
Proof.
  intros Hnd Hlen (t1 & t2 & Hdiff).
  assert (Hne : servers <> []).
  { destruct servers; [cbn in Hlen; lia | congruence]. }
  pose proof (chooseBackend_follows_draw servers t1 t2 Hnd Hne Hdiff) as H12.
  split.
  - exists t1, t2. exact H12.
  - destruct (index servers 0) as [b0 | m0] eqn:H0.
    + destruct (chooseBackend_nth t1 servers Hne) as (b1 & Hb1 & _).
      destruct (chooseBackend_nth t2 servers Hne) as (b2 & Hb2 & _).
      destruct (string_dec b1 b0) as [E1 | N1].
      * exists t2. rewrite Hb2. intros E2. apply H12.
        rewrite Hb1, Hb2. congruence.
      * exists t1. rewrite Hb1. congruence.
    + destruct (chooseBackend_nth t1 servers Hne) as (b1 & Hb1 & _).
      exists t1. rewrite Hb1. discriminate.
Qed.

Lemma chooseBackend_not_static_witness :
  (exists t1 t2,
      @chooseBackend modRand t1 DefaultServers
        <> @chooseBackend modRand t2 DefaultServers)
  /\ (exists t,
        @chooseBackend modRand t DefaultServers <> index DefaultServers 0).
Proof.
  apply (@chooseBackend_not_static modRand DefaultServers).
  - unfold DefaultServers.
    repeat (constructor; [cbn [In]; intuition discriminate |]).
    constructor.
  - cbn. lia.
  - exists 0, 1. cbn. discriminate.
Defined.

(** C10.  When the file cannot be opened, whatever the reason, the
    loader returns a nil error and the default configuration. *)
Theorem loadConfig_unopenable (fs : FS) (filename : string) (err : error) :
  os_Open fs filename = inl err ->
  loadConfig fs filename
  = (Some (mkConfig "localhost:8080"
             ["localhost:5001"; "localhost:5002"; "localhost:5003"] 60),
     None).
Proof.
  intros Hopen. unfold loadConfig. rewrite Hopen. reflexivity.
Qed.

Lemma loadConfig_unopenable_witness :
  os_Open emptyFS "config.json" = inl noFile
  /\ loadConfig emptyFS "config.json"
     = (Some (mkConfig "localhost:8080"
                ["localhost:5001"; "localhost:5002"; "localhost:5003"] 60),
        None).
Proof.
  split; [reflexivity |].
  apply (loadConfig_unopenable emptyFS "config.json" noFile). reflexivity.
Defined.

(** C8.  The selector has no guard of its own: it panics in [rand.Intn]
    on the empty list and returns normally on every other list.  The
    loader checks nothing after decoding: a file whose [server] member is
    the empty array loads without error into a configuration whose server
    list is empty, on which the selector panics. *)
Theorem chooseBackend_unguarded `{R : Rand} (fs : FS) (filename : string)
  (now : Z) :
  os_Open fs filename = inr (Doc (JObject [("server", JArray [])])) ->
  chooseBackend now [] = Panic "invalid argument to Intn"
  /\ (forall servers, servers <> [] ->
        exists b, chooseBackend now servers = Ok b)
  /\ exists config,
       loadConfig fs filename = (Some config, None)
       /\ Server config = []
       /\ ListenAddr config = DefaultListenAddr
       /\ ConnectionTimeout config = DefaultConnectionTimeout
       /\ chooseBackend now (Server config)
          = Panic "invalid argument to Intn".
Proof.
  intros Hopen. split; [reflexivity | split].
  - intros servers Hne.
    destruct (chooseBackend_nth now servers Hne) as (b & Hb & _).
    exists b. exact Hb.
  - unfold loadConfig. rewrite Hopen.
    eexists. split; [reflexivity |].
    repeat split; reflexivity.
Qed.

Lemma chooseBackend_unguarded_witness :
  exists config,
    loadConfig emptyServersFS ConfigFile = (Some config, None)
    /\ Server config = []
    /\ @chooseBackend modRand 42 (Server config)
       = Panic "invalid argument to Intn".
Proof.
  destruct (@chooseBackend_unguarded modRand emptyServersFS ConfigFile 42
              eq_refl)
    as (_ & _ & config & Hload & Hsrv & _ & _ & Hpanic).
  exists config. repeat split; assumption.
Defined.

(* ===================================================================== *)
(** * Properties of the relay *)
(* ===================================================================== *)

Section Relay.

Variables (backend : string) (c : Conn).

Lemma proxy_init_inv : proxy_inv backend c proxy_init.
Proof. reflexivity. Qed.

Lemma quiet_snoc (t t' : list Effect) :
  quiet t -> quiet t' -> quiet (t ++ t')%list.
Proof. intros H H'. apply Forall_app. split; assumption. Qed.

Lemma proxy_step_inv (l : Label) (s s' : ProxyState) :
  proxy_inv backend c s ->
  proxy_step backend c l s = Some s' ->
  proxy_inv backend c s'.
Proof.
  unfold proxy_inv, proxy_step. intros Hinv Hstep.
  destruct (pc s) as [ | | r | m] eqn:Hpc.
  - (* AtDial *)
    subst s. destruct l as [[err |] | | | ]; try discriminate;
      injection Hstep as <-; cbn.
    + repeat split. exists err. split; reflexivity.
    + repeat split. repeat constructor.
  - (* AtWait *)
    destruct Hinv as (Hc & Hb & Hwg & Hq).
    destruct l as [r | d bytes | d r | ]; try discriminate.
    + destruct (running d s && client_open s && backend_open s);
        [| discriminate].
      injection Hstep as <-. cbn.
      repeat split; try assumption.
      apply quiet_snoc; [assumption | repeat constructor].
    + destruct (running d s) eqn:Hrun; [| discriminate].
      injection Hstep as <-. cbn.
      assert (Hpos : (wg s - 1 <? 0) = false).
      { apply Z.ltb_ge. rewrite Hwg. unfold count_running.
        destruct d; cbn in Hrun; rewrite Hrun;
          destruct (c2b_running s), (b2c_running s); lia. }
      rewrite Hpos.
      repeat split; try assumption.
      * rewrite Hwg. unfold count_running. cbn.
        destruct d; cbn in Hrun; rewrite Hrun;
          destruct (c2b_running s), (b2c_running s); lia.
      * apply quiet_snoc; [assumption |].
        destruct r; repeat constructor.
    + destruct (Z.eqb_spec (wg s) 0) as [Hz | _]; [| discriminate].
      injection Hstep as <-. cbn.
      rewrite Hwg in Hz. unfold count_running in Hz.
      repeat split;
        try (destruct (c2b_running s), (b2c_running s); (reflexivity || lia)).
      exists (trace s). split; [reflexivity | assumption].
  - destruct l; discriminate.
  - destruct l; discriminate.
Qed.

Lemma proxy_run_inv (ls : list Label) :
  forall s s',
    proxy_inv backend c s ->
    proxy_run backend c ls s = Some s' ->
    proxy_inv backend c s'.
Proof.
  induction ls as [| l ls IH]; intros s s' Hinv Hrun; cbn in Hrun.
  - injection Hrun as <-. exact Hinv.
  - destruct (proxy_step backend c l s) as [s1 |] eqn:Hstep;
      [| discriminate].
    eapply IH; [| exact Hrun].
    eapply proxy_step_inv; eassumption.
Qed.

Lemma proxy_reachable_inv (ls : list Label) (s : ProxyState) :
  proxy backend c ls = Some s -> proxy_inv backend c s.
Proof. apply proxy_run_inv. apply proxy_init_inv. Qed.

Lemma proxy_run_app (ls ls' : list Label) :
  forall s s',
    proxy_run backend c ls s = Some s' ->
    proxy_run backend c (ls ++ ls') s = proxy_run backend c ls' s'.
Proof.
  induction ls as [| l ls IH]; intros s s' Hrun; cbn in Hrun |- *.
  - injection Hrun as <-. reflexivity.
  - destruct (proxy_step backend c l s) as [s1 |]; [| discriminate].
    apply IH. exact Hrun.
Qed.

(** A step only appends to the trace. *)
Lemma proxy_step_trace (l : Label) (s s' : ProxyState) :
  proxy_step backend c l s = Some s' ->
  exists t, trace s' = (trace s ++ t)%list.
Proof.
  unfold proxy_step. intros Hstep.
  destruct l as [[err |] | d bytes | d r | ], (pc s);
    try discriminate;
    repeat match type of Hstep with
           | (if ?b then _ else _) = _ => destruct b; try discriminate
           end;
    injection Hstep as <-; cbn; eexists; reflexivity.
Qed.

Lemma proxy_run_trace (ls : list Label) :
  forall s s',
    proxy_run backend c ls s = Some s' ->
    exists t, trace s' = (trace s ++ t)%list.
Proof.
  induction ls as [| l ls IH]; intros s s' Hrun; cbn in Hrun.
  - injection Hrun as <-. exists []. symmetry. apply app_nil_r.
  - destruct (proxy_step backend c l s) as [s1 |] eqn:Hstep;
      [| discriminate].
    destruct (proxy_step_trace _ _ _ Hstep) as (t1 & Ht1).
    destruct (IH _ _ Hrun) as (t2 & Ht2).
    exists (t1 ++ t2)%list. rewrite Ht2, Ht1. symmetry. apply app_assoc.
Qed.

(** A copy that fails is logged by its goroutine. *)
Lemma proxy_run_logs (ls : list Label) (d : Dir) (err : error) :
  forall s s',
    proxy_run backend c ls s = Some s' ->
    In (LCopyRet d (Some err)) ls ->
    In (ELog (copy_failed d err)) (trace s').
Proof.
  induction ls as [| l ls IH]; intros s s' Hrun Hin; cbn in Hrun.
  - destruct Hin.
  - destruct (proxy_step backend c l s) as [s1 |] eqn:Hstep;
      [| discriminate].
    destruct Hin as [-> | Hin].
    + destruct (proxy_run_trace _ _ _ Hrun) as (t & ->).
      apply in_or_app. left.
      unfold proxy_step in Hstep.
      destruct (pc s); try discriminate.
      destruct (running d s); [| discriminate].
      injection Hstep as <-. cbn.
      apply in_or_app. right. left. reflexivity.
    + eapply IH; eassumption.
Qed.

Lemma proxy_step_dialled (l : Label) (s s' : ProxyState) :
  proxy_inv backend c s ->
  dialled s ->
  proxy_step backend c l s = Some s' ->
  dialled s'.
Proof.
  intros Hinv Hd Hstep.
  pose proof (proxy_step_inv _ _ _ Hinv Hstep) as Hinv'.
  unfold dialled in *. unfold proxy_step in Hstep.
  destruct Hd as [Hpc | Hpc]; rewrite Hpc in Hstep.
  - destruct l as [r | d bytes | d r | ]; try discriminate.
    + destruct (running d s && client_open s && backend_open s);
        [| discriminate].
      injection Hstep as <-. cbn. left. reflexivity.
    + destruct (running d s); [| discriminate].
      destruct (wg s - 1 <? 0) eqn:Hneg.
      * injection Hstep as <-. cbn in Hinv'. destruct Hinv'.
      * injection Hstep as <-. cbn. left. reflexivity.
    + destruct (wg s =? 0); [| discriminate].
      injection Hstep as <-. cbn. right. reflexivity.
  - destruct l; discriminate.
Qed.

Lemma proxy_run_dialled (ls : list Label) :
  forall s s',
    proxy_inv backend c s ->
    dialled s ->
    proxy_run backend c ls s = Some s' ->
    dialled s'.
Proof.
  induction ls as [| l ls IH]; intros s s' Hinv Hd Hrun; cbn in Hrun.
  - injection Hrun as <-. exact Hd.
  - destruct (proxy_step backend c l s) as [s1 |] eqn:Hstep;
      [| discriminate].
    eapply IH; [| | exact Hrun].
    + eapply proxy_step_inv; eassumption.
    + eapply proxy_step_dialled; eassumption.
Qed.

Lemma proxy_finish (s : ProxyState) (r1 r2 : option error) :
  proxy_inv backend c s ->
  pc s = AtWait ->
  exists s',
    proxy_run backend c (finish s r1 r2) s = Some s'
    /\ pc s' = Returned None.
Proof.
  unfold proxy_inv, finish. intros Hinv Hpc. rewrite Hpc in Hinv.
  destruct Hinv as (Hc & Hb & Hwg & _).
  destruct s as [p co bo w r1' r2' t]. cbn in *.
  unfold count_running in Hwg. cbn in Hwg. subst p co bo w.
  destruct r1', r2'; cbn; unfold proxy_step; cbn;
    eexists; split; reflexivity.
Qed.

(** A copy goroutine keeps running until its own [io.Copy] returns. *)
Lemma proxy_step_keeps_running (d : Dir) (l : Label) (s s' : ProxyState) :
  running d s = true ->
  (forall r, l <> LCopyRet d r) ->
  proxy_step backend c l s = Some s' ->
  running d s' = true.
Proof.
  unfold proxy_step. intros Hrun Hl Hstep.
  destruct l as [[err |] | d' bytes | d' r | ], (pc s);
    try discriminate;
    repeat match type of Hstep with
           | (if ?b then _ else _) = _ => destruct b; try discriminate
           end;
    injection Hstep as <-;
    destruct d; cbn in *; try assumption; try reflexivity;
    destruct d'; try assumption;
    exfalso; eapply Hl; reflexivity.
Qed.

Lemma proxy_run_keeps_running (d : Dir) (ls : list Label) :
  forall s s',
    running d s = true ->
    (forall r, ~ In (LCopyRet d r) ls) ->
    proxy_run backend c ls s = Some s' ->
    running d s' = true.
Proof.
  induction ls as [| l ls IH]; intros s s' Hrun Hl Hgo; cbn in Hgo.
  - injection Hgo as <-. exact Hrun.
  - destruct (proxy_step backend c l s) as [s1 |] eqn:Hstep;
      [| discriminate].
    eapply IH; [| | exact Hgo].
    + eapply proxy_step_keeps_running; [exact Hrun | | exact Hstep].
      intros r ->. apply (Hl r). left. reflexivity.
    + intros r Hin. apply (Hl r). right. exact Hin.
Qed.

(** While a copy goroutine runs, the relay is in its wait and has
    closed nothing. *)
Lemma proxy_inv_running (d : Dir) (s : ProxyState) :
  proxy_inv backend c s ->
  running d s = true ->
  pc s = AtWait /\ client_open s = true /\ backend_open s = true
  /\ quiet (trace s).
Proof.
  unfold proxy_inv. intros Hinv Hrun.
  destruct (pc s) as [ | | [e |] | m].
  - subst s. destruct d; discriminate.
  - tauto.
  - destruct Hinv as (_ & _ & H1 & H2 & _).
    destruct d; cbn in Hrun; congruence.
  - destruct Hinv as (_ & _ & H1 & H2 & _).
    destruct d; cbn in Hrun; congruence.
  - destruct Hinv.
Qed.

(** Every dial of the relay is the one [proxy] writes. *)
Lemma proxy_run_dials (ls : list Label) (req : DialReq) :
  forall s s',
    (In (EDial req) (trace s) ->
     req = mkDial "tcp" backend (Some proxy_dial_timeout)) ->
    proxy_run backend c ls s = Some s' ->
    In (EDial req) (trace s') ->
    req = mkDial "tcp" backend (Some proxy_dial_timeout).
Proof.
  induction ls as [| l ls IH]; intros s s' Hold Hrun Hin; cbn in Hrun.
  - injection Hrun as <-. auto.
  - destruct (proxy_step backend c l s) as [s1 |] eqn:Hstep;
      [| discriminate].
    eapply IH; [| exact Hrun | exact Hin].
    clear Hin. intros Hin. unfold proxy_step in Hstep.
    destruct l as [[err |] | d bytes | d r | ], (pc s);
      try discriminate;
      repeat match type of Hstep with
             | (if ?b then _ else _) = _ => destruct b; try discriminate
             end;
      injection Hstep as <-; cbn in Hin;
      apply in_app_or in Hin; destruct Hin as [Hin | Hin]; auto;
      cbn in Hin;
      repeat match type of Hin with
             | _ \/ _ => destruct Hin as [Hin | Hin]
             end;
      try discriminate; try contradiction;
      try (injection Hin as <-; reflexivity).
    destruct r; cbn in Hin; intuition discriminate.
Qed.

End Relay.

(** C3.  When the dial fails, for whatever reason, the relay returns an
    error that names the backend and the cause; the client connection
    is closed before the return; no backend connection exists; no byte
    was forwarded in either direction; and nothing happens afterwards. *)
Theorem proxy_dial_failure (backend : string) (c : Conn) (err : error) :
  exists s,
    proxy backend c [LDial (Some err)] = Some s
    /\ pc s = Returned (Some (dial_failed backend err))
    /\ Error (dial_failed backend err)
       = "failed to connect to backend " ++ backend ++ ": " ++ Error err
    /\ trace s
       = [EDial (mkDial "tcp" backend (Some proxy_dial_timeout));
          ECloseClient;
          EReturn (Some (dial_failed backend err))]
    /\ client_open s = false
    /\ backend_open s = false
    /\ forwarded ClientToBackend (trace s) = []
    /\ forwarded BackendToClient (trace s) = []
    /\ (forall ls s',
          proxy backend c (LDial (Some err) :: ls) = Some s' -> s' = s).
Proof.
  eexists. split; [reflexivity |].
  repeat split.
  intros ls s' Hrun. unfold proxy in Hrun. cbn in Hrun.
  destruct ls as [| l ls]; cbn in Hrun.
  - injection Hrun as <-. reflexivity.
  - destruct l; discriminate.
Qed.

(** C9.  After a dial that succeeded the relay returns nothing but nil:
    the state it returns in carries a nil error, the only return in its
    trace is a nil return, every copy error of the schedule is in the
    log, and from wherever the schedule has led, letting the copies end
    (with or without an error) brings the relay to its nil return. *)
Theorem proxy_returns_nil_after_dial (backend : string) (c : Conn)
  (ls : list Label) (s : ProxyState) :
  proxy backend c (LDial None :: ls) = Some s ->
  (forall r, pc s = Returned r -> r = None)
  /\ (forall r, In (EReturn r) (trace s) -> r = None)
  /\ (forall d err,
        In (LCopyRet d (Some err)) ls ->
        In (ELog (copy_failed d err)) (trace s))
  /\ (pc s = AtWait \/ pc s = Returned None)
  /\ (pc s = AtWait ->
      forall r1 r2, exists s',
        proxy backend c (LDial None :: ls ++ finish s r1 r2) = Some s'
        /\ pc s' = Returned None).
Proof.
  intros Hrun.
  pose proof (proxy_reachable_inv _ _ _ _ Hrun) as Hinv.
  unfold proxy in Hrun. cbn in Hrun.
  match type of Hrun with
  | proxy_run _ _ _ ?s1 = _ => set (s1' := s1) in *
  end.
  assert (Hinv1 : proxy_inv backend c s1').
  { cbn. repeat split. repeat constructor. }
  assert (Hd : dialled s).
  { eapply proxy_run_dialled; [exact Hinv1 | | exact Hrun].
    left. reflexivity. }
  repeat split.
  - intros r Hr. destruct Hd as [Hpc | Hpc]; rewrite Hpc in Hr; congruence.
  - intros r Hin. unfold proxy_inv in Hinv.
    destruct Hd as [Hpc | Hpc]; rewrite Hpc in Hinv.
    + destruct Hinv as (_ & _ & _ & Hq).
      unfold quiet in Hq. rewrite Forall_forall in Hq.
      destruct (Hq _ Hin).
    + destruct Hinv as (_ & _ & _ & _ & t & Ht & Hq).
      rewrite Ht in Hin. apply in_app_or in Hin.
      destruct Hin as [Hin | Hin].
      * unfold quiet in Hq. rewrite Forall_forall in Hq.
        destruct (Hq _ Hin).
      * cbn in Hin.
        repeat match type of Hin with
               | _ \/ _ => destruct Hin as [Hin | Hin]
               end;
          try discriminate; try contradiction.
        injection Hin as <-. reflexivity.
  - intros d err Hin. eapply proxy_run_logs; eassumption.
  - exact Hd.
  - intros Hpc r1 r2.
    destruct (proxy_finish backend c s r1 r2 Hinv Hpc) as (s' & Hfin & Hpc').
    exists s'. split; [| exact Hpc'].
    unfold proxy. cbn. fold s1'.
    rewrite (proxy_run_app backend c ls _ s1' s Hrun). exact Hfin.
Qed.

Lemma proxy_returns_nil_after_dial_witness :
  exists s,
    proxy "localhost:5002" sampleConn
      [LDial None;
       LCopyRet BackendToClient (Some resetByPeer);
       LCopyRet ClientToBackend (Some resetByPeer);
       LJoin] = Some s
    /\ pc s = Returned None
    /\ In (ELog (copy_failed ClientToBackend resetByPeer)) (trace s)
    /\ In (ELog (copy_failed BackendToClient resetByPeer)) (trace s).
Proof.
  eexists. split; [reflexivity |].
  split; [reflexivity |].
  split;
    apply (proxy_returns_nil_after_dial "localhost:5002" sampleConn
             [LCopyRet BackendToClient (Some resetByPeer);
              LCopyRet ClientToBackend (Some resetByPeer);
              LJoin] _ eq_refl);
    cbn; auto.
Defined.

(** C2, as stated, fails.  The client-to-backend copy has ended; the
    relay has closed neither connection and cannot move (its wait is not
    over); the other copy is still running; and however the schedule goes
    on, both connections stay open until that other copy returns by
    itself. *)
Lemma proxy_first_copy_end_closes_nothing :
  exists s,
    proxy "localhost:5001" sampleConn
      [LDial None; LCopyRet ClientToBackend None] = Some s
    /\ running ClientToBackend s = false
    /\ running BackendToClient s = true
    /\ client_open s = true
    /\ backend_open s = true
    /\ ~ In ECloseClient (trace s)
    /\ ~ In ECloseBackend (trace s)
    /\ proxy_step "localhost:5001" sampleConn LJoin s = None
    /\ (forall ls s',
          (forall r, ~ In (LCopyRet BackendToClient r) ls) ->
          proxy_run "localhost:5001" sampleConn ls s = Some s' ->
          client_open s' = true /\ backend_open s' = true
          /\ running BackendToClient s' = true).
Proof.
  eexists. split; [reflexivity |].
  repeat (split; [first [reflexivity | cbn; intuition discriminate] |]).
  intros ls s' Hquiet Hrun.
  match type of Hrun with
  | proxy_run _ _ _ ?s0 = Some _ =>
      assert (Hinv0 : proxy_inv "localhost:5001" sampleConn s0)
        by (cbn; repeat split; repeat constructor);
      assert (Hrun0 : running BackendToClient s0 = true) by reflexivity
  end.
  pose proof (proxy_run_inv _ _ _ _ _ Hinv0 Hrun) as Hinv.
  pose proof (proxy_run_keeps_running _ _ _ _ _ _ Hrun0 Hquiet Hrun) as Hr.
  destruct (proxy_inv_running _ _ _ _ Hinv Hr) as (_ & Hc & Hb & _).
  repeat split; assumption.
Qed.

(** C2, amended.  In every state the relay reaches: while a copy is
    still running the relay is in its wait and has closed nothing; when
    it has returned after a successful dial, both copies have ended, both
    connections are closed, and its trace ends with the backend close, the
    client close and the return, in that order, with no close before
    them; and from its wait, whichever copies are still running and in
    whichever order they ended, letting them end brings the relay to that
    return. *)
Theorem proxy_closes_after_both_copies (backend : string) (c : Conn)
  (ls : list Label) (s : ProxyState) :
  proxy backend c ls = Some s ->
  (forall d, running d s = true ->
     pc s = AtWait /\ client_open s = true /\ backend_open s = true
     /\ quiet (trace s))
  /\ (pc s = Returned None ->
      running ClientToBackend s = false
      /\ running BackendToClient s = false
      /\ client_open s = false /\ backend_open s = false
      /\ exists t,
           trace s
           = (t ++ [EPrint (closed_line c backend); ECloseBackend;
                    ECloseClient; EReturn None])%list
           /\ quiet t)
  /\ (pc s = AtWait ->
      forall r1 r2, exists s',
        proxy backend c (ls ++ finish s r1 r2) = Some s'
        /\ pc s' = Returned None
        /\ client_open s' = false /\ backend_open s' = false).
Proof.
  intros Hrun.
  pose proof (proxy_reachable_inv _ _ _ _ Hrun) as Hinv.
  split; [| split].
  - intros d Hd. eapply proxy_inv_running; eassumption.
  - intros Hpc. unfold proxy_inv in Hinv. rewrite Hpc in Hinv.
    destruct Hinv as (Hc & Hb & H1 & H2 & t & Ht & Hq).
    repeat split; try assumption.
    exists t. split; assumption.
  - intros Hpc r1 r2.
    destruct (proxy_finish backend c s r1 r2 Hinv Hpc) as (s' & Hfin & Hpc').
    assert (Hrun' : proxy backend c (ls ++ finish s r1 r2) = Some s').
    { unfold proxy in *.
      rewrite (proxy_run_app backend c ls _ _ s Hrun). exact Hfin. }
    exists s'. split; [exact Hrun' |]. split; [exact Hpc' |].
    pose proof (proxy_reachable_inv _ _ _ _ Hrun') as Hinv'.
    unfold proxy_inv in Hinv'. rewrite Hpc' in Hinv'.
    destruct Hinv' as (Hc & Hb & _). split; assumption.
Qed.

Lemma proxy_closes_after_both_copies_witness :
  exists s,
    proxy "localhost:5003" sampleConn
      [LDial None;
       LCopy ClientToBackend [Byte.x50; Byte.x49];
       LCopyRet BackendToClient None;
       LCopy ClientToBackend [Byte.x4e; Byte.x47]] = Some s
    /\ pc s = AtWait /\ client_open s = true /\ backend_open s = true
    /\ quiet (trace s).
Proof.
  eexists. split; [reflexivity |].
  refine (proj1
            (proxy_closes_after_both_copies "localhost:5003" sampleConn
               [LDial None;
                LCopy ClientToBackend [Byte.x50; Byte.x49];
                LCopyRet BackendToClient None;
                LCopy ClientToBackend [Byte.x4e; Byte.x47]] _ eq_refl)
            ClientToBackend eq_refl).
Defined.

(* ===================================================================== *)
(** * Properties of the listener loop *)
(* ===================================================================== *)

Lemma sampleRun_eq :
  @main_run modRand defaultConfig sampleEvents (main_init defaultConfig)
  = sampleRun.
Proof. vm_compute. reflexivity. Qed.

Section Listener.

Context `{R : Rand}.
Variable config : Config.

Lemma main_init_in_loop : in_loop config (main_init config).
Proof. left. split; reflexivity. Qed.

Lemma accept_body_in_loop (r : error + Conn) (now : Z) (s : MainState) :
  listener_open s = true -> in_loop config (accept_body config r now s).
Proof.
  intros Hopen. unfold accept_body, in_loop.
  destruct r as [err | conn]; cbn.
  - left. split; [reflexivity | exact Hopen].
  - destruct (chooseBackend now (Server config)) as [b | msg] eqn:Hch; cbn.
    + left. split; [reflexivity | exact Hopen].
    + right. split; [| exists msg; left; reflexivity].
      destruct (Server config) as [| a l] eqn:Hsrv; [reflexivity |].
      assert (Hne : a :: l <> []) by congruence.
      destruct (chooseBackend_nth now (a :: l) Hne) as (b & Hb & _).
      congruence.
Qed.

Lemma accept_body_sig_chan (r : error + Conn) (now : Z) (s : MainState) :
  sig_chan (accept_body config r now s) = sig_chan s.
Proof.
  unfold accept_body. destruct r as [err | conn]; [reflexivity |].
  destruct (chooseBackend now (Server config)); reflexivity.
Qed.

(** A step keeps the process in the loop, and keeps a signal that is in
    the channel. *)
Lemma main_step_in_loop (ev : Event) (s s' : MainState) :
  in_loop config s ->
  main_step config ev s = Some s' ->
  in_loop config s' /\ (sig_chan s <> None -> sig_chan s' <> None).
Proof.
  intros [[Hpc Hopen] | (Hsrv & msg & [Hpc | Hpc])] Hstep;
    unfold main_step in Hstep; rewrite Hpc in Hstep; try discriminate.
  - (* at the accept *)
    destruct ev as [r now | sg | | err | b].
    + destruct r as [err | conn];
        [destruct (accept_can_fail_with err s); [| discriminate]
        | rewrite Hopen in Hstep];
        injection Hstep as <-.
      * split; [exact (accept_body_in_loop (inl err) now s Hopen) |].
        change (sig_chan s <> None ->
                sig_chan (accept_body config (inl err) now s) <> None).
        rewrite accept_body_sig_chan. auto.
      * split; [exact (accept_body_in_loop (inr conn) now s Hopen) |].
        change (sig_chan s <> None ->
                sig_chan (accept_body config (inr conn) now s) <> None).
        rewrite accept_body_sig_chan. auto.
    + injection Hstep as <-. split.
      * left. split; [reflexivity | exact Hopen].
      * cbn. destruct (sig_chan s); congruence.
    + destruct (timer_armed s); [| discriminate].
      injection Hstep as <-. split; [| auto].
      left. split; [reflexivity | exact Hopen].
    + destruct (0 <? m_wg s); [| discriminate].
      injection Hstep as <-. split; [| auto].
      left. split; [reflexivity | exact Hopen].
    + unfold after_loop in Hstep. rewrite Hpc in Hstep. discriminate.
  - (* panicking *)
    assert (Hright : forall s1, m_pc s1 = Panicking msg -> in_loop config s1).
    { intros s1 H1. right. split; [exact Hsrv |]. exists msg. left. exact H1. }
    destruct ev as [r now | sg | | err | b].
    + destruct r; discriminate.
    + injection Hstep as <-. split; [apply Hright; reflexivity |].
      cbn. destruct (sig_chan s); congruence.
    + destruct (timer_armed s); [| discriminate].
      injection Hstep as <-. split; [apply Hright; reflexivity | auto].
    + destruct (0 <? m_wg s); [| discriminate].
      injection Hstep as <-. split; [apply Hright; reflexivity | auto].
    + unfold after_loop in Hstep. rewrite Hpc in Hstep.
      destruct (m_wg s =? 0); [| discriminate].
      injection Hstep as <-. split; [| auto].
      right. split; [exact Hsrv |]. exists msg. right. reflexivity.
Qed.

Lemma main_run_in_loop (evs : list Event) :
  forall s s',
    in_loop config s ->
    main_run config evs s = Some s' ->
    in_loop config s' /\ (sig_chan s <> None -> sig_chan s' <> None).
Proof.
  induction evs as [| ev evs IH]; intros s s' Hin Hrun; cbn in Hrun.
  - injection Hrun as <-. split; [exact Hin | auto].
  - destruct (main_step config ev s) as [s1 |] eqn:Hstep; [| discriminate].
    destruct (main_step_in_loop _ _ _ Hin Hstep) as [Hin1 Hsig1].
    destruct (IH _ _ Hin1 Hrun) as [Hin' Hsig'].
    split; [exact Hin' | auto].
Qed.

(** A signal delivered during the run is in the channel at its end. *)
Lemma main_run_buffers_signal (evs : list Event) (sg : Signal) :
  forall s s',
    in_loop config s ->
    In (EvSignal sg) evs ->
    main_run config evs s = Some s' ->
    sig_chan s' <> None.
Proof.
  induction evs as [| ev evs IH]; intros s s' Hin Hev Hrun; cbn in Hrun.
  - destruct Hev.
  - destruct (main_step config ev s) as [s1 |] eqn:Hstep; [| discriminate].
    destruct (main_step_in_loop _ _ _ Hin Hstep) as [Hin1 _].
    destruct Hev as [-> | Hev].
    + apply (proj2 (main_run_in_loop _ _ _ Hin1 Hrun)).
      unfold main_step in Hstep.
      destruct (m_pc s); try discriminate;
        injection Hstep as <-; cbn; destruct (sig_chan s); congruence.
    + eapply IH; eassumption.
Qed.

(** In the loop, the code after the loop is out of reach. *)
Lemma in_loop_not_after (s : MainState) :
  in_loop config s ->
  m_pc s <> AtSelect /\ m_pc s <> AtDeferWait
  /\ forall code, m_pc s <> Exited code.
Proof.
  intros [[Hpc _] | (_ & msg & [Hpc | Hpc])]; rewrite Hpc;
    repeat split; try intros code; discriminate.
Qed.

End Listener.

(** C1.  What the code does instead: whatever signals are delivered,
    whenever the timer expires, and whatever else happens, the process
    never reaches the select that would start the shutdown, never waits
    for its relays on the way out and never exits; with a non-empty
    server list it is still at the accept of its loop, the listener open
    and the select unable to move; and a delivered signal is still
    sitting in its channel, unread. *)
Theorem main_never_leaves_loop `{R : Rand} (config : Config)
  (evs : list Event) (s : MainState) :
  main_run config evs (main_init config) = Some s ->
  m_pc s <> AtSelect
  /\ m_pc s <> AtDeferWait
  /\ (forall code, m_pc s <> Exited code)
  /\ (Server config <> [] ->
      m_pc s = AtAccept /\ listener_open s = true
      /\ forall b, main_step config (EvSelect b) s = None)
  /\ (forall sg, In (EvSignal sg) evs -> sig_chan s <> None).
Proof.
  intros Hrun.
  destruct (main_run_in_loop config evs _ _ (main_init_in_loop config) Hrun)
    as [Hin _].
  destruct (in_loop_not_after config s Hin) as (H1 & H2 & H3).
  repeat (split; [assumption |]).
  split.
  - intros Hne. destruct Hin as [[Hpc Hopen] | (Hsrv & _)]; [| contradiction].
    repeat (split; [assumption |]).
    intros b. unfold main_step, after_loop. rewrite Hpc. reflexivity.
  - intros sg Hsg.
    eapply main_run_buffers_signal;
      [apply main_init_in_loop | exact Hsg | exact Hrun].
Qed.

Lemma main_never_leaves_loop_witness :
  exists s,
    @main_run modRand defaultConfig sampleEvents (main_init defaultConfig)
    = Some s
    /\ m_pc s = AtAccept
    /\ listener_open s = true
    /\ sig_chan s = Some SIGINT
    /\ timer_chan s = true
    /\ m_wg s = 0.
Proof.
  pose proof sampleRun_eq as Hrun. unfold sampleRun in Hrun.
  match type of Hrun with
  | _ = Some ?s0 => exists s0
  end.
  split; [exact Hrun |].
  destruct (@main_never_leaves_loop modRand defaultConfig sampleEvents
              _ Hrun) as (_ & _ & _ & Hloop & _).
  assert (Hne : Server defaultConfig <> []) by (cbv; discriminate).
  destruct (Hloop Hne) as (Hpc & Hopen & _).
  split; [exact Hpc |]. split; [exact Hopen |].
  repeat split.
Defined.



(** Every relay the loop starts is [proxy] on the selected backend and
    the accepted connection; the configured timeout only sets the
    timer. *)
Lemma timeout_of_follows_config :
  timeout_of (mkConfig DefaultListenAddr DefaultServers 60) = 60000000000
  /\ timeout_of (mkConfig DefaultListenAddr DefaultServers 1) = 1000000000.
Proof. split; reflexivity. Qed.

(** C7.  Under every configuration, whatever its connection timeout,
    every dial of every relay the listener loop has started asks for the
    backend the relay was given, over TCP, with a timeout of 5 seconds
    (5000000000 nanoseconds). *)
Theorem proxy_dial_timeout_fixed `{R : Rand} (config : Config)
  (evs : list Event) (ms : MainState) (backend : string) (conn : Conn)
  (ls : list Label) (ps : ProxyState) (req : DialReq) :
  main_run config evs (main_init config) = Some ms ->
  In (backend, conn) (relays ms) ->
  proxy backend conn ls = Some ps ->
  In (EDial req) (trace ps) ->
  dial_timeout req = Some 5000000000
  /\ dial_network req = "tcp"
  /\ dial_address req = backend.
Proof.
  intros _ _ Hrun Hin.
  assert (Hreq : req = mkDial "tcp" backend (Some proxy_dial_timeout)).
  { eapply proxy_run_dials; [| exact Hrun | exact Hin].
    intros []. }
  subst req. repeat split.
Qed.

Lemma proxy_dial_timeout_fixed_witness :
  dial_timeout (mkDial "tcp" "localhost:5002" (Some proxy_dial_timeout))
  = Some 5000000000.
Proof.
  refine (proj1
            (@proxy_dial_timeout_fixed modRand
               (mkConfig "localhost:8080" DefaultServers 1)
               [EvAccept (inr sampleConn) 1]
               _ "localhost:5002" sampleConn
               [LDial (Some refused)] _ _
               eq_refl _ eq_refl _)).
  - left. reflexivity.
  - left. reflexivity.
Defined.

(** With the configuration of [emptyServersFS] the process starts,
    panics in the selector on the first connection it accepts, runs its
    deferred calls and dies. *)
Lemma main_empty_servers_panics :
  exists config s,
    main_boot emptyServersFS None = Serving config (main_init config)
    /\ Server config = []
    /\ @main_step modRand config (EvAccept (inr sampleConn) 42)
         (main_init config) = Some s
    /\ m_pc s = Panicking "invalid argument to Intn"
    /\ exists s',
         @main_step modRand config (EvSelect true) s = Some s'
         /\ m_pc s' = Panicked "invalid argument to Intn"
         /\ listener_open s' = false.
Proof. do 2 eexists. repeat split. eexists. repeat split. Qed.

(* ===================================================================== *)
(** * The earlier program, for comparison *)
(* ===================================================================== *)

(** Its selector always returns the first server. *)
Lemma legacy_chooseBackend_always_first :
  Legacy.chooseBackend = Ok "localhost:5001".
Proof. reflexivity. Qed.

(** Its relay dials without a timeout and, when the dial fails, returns
    the error with the client connection left open. *)
Lemma legacy_dial_failure_closes_nothing (backend : string) (c : Conn)
  (err : error) :
  exists s,
    Legacy.proxy_run backend c [LDial (Some err)] Legacy.proxy_init = Some s
    /\ Legacy.trace s
       = [EDial (mkDial "tcp" backend None);
          EReturn (Some (dial_failed backend err))].
Proof. eexists. split; reflexivity. Qed.

(** Its relay returns nil right after starting the copies, and no
    schedule ever closes a connection. *)
Lemma legacy_proxy_never_closes (backend : string) (c : Conn)
  (ls : list Label) :
  forall s s',
    ~ In ECloseClient (Legacy.trace s) ->
    ~ In ECloseBackend (Legacy.trace s) ->
    Legacy.proxy_run backend c ls s = Some s' ->
    ~ In ECloseClient (Legacy.trace s')
    /\ ~ In ECloseBackend (Legacy.trace s').
Proof.
  induction ls as [| l ls IH]; intros s s' Hc Hb Hrun; cbn in Hrun.
  - injection Hrun as <-. split; assumption.
  - destruct (Legacy.proxy_step backend c l s) as [s1 |] eqn:Hstep;
      [| discriminate].
    eapply IH; [| | exact Hrun];
      unfold Legacy.proxy_step in Hstep;
      destruct l as [[err |] | d bytes | d r | ];
      try discriminate;
      try (destruct (Legacy.pc s); try discriminate);
      try (destruct (Legacy.running d s); try discriminate);
      injection Hstep as <-; cbn;
      try assumption;
      intros Hin; apply in_app_or in Hin; destruct Hin as [Hin | Hin];
      try contradiction; cbn in Hin; intuition discriminate.
Qed.

(** Its loop has no [continue] after a failed accept: it logs the error
    and still starts a relay, with the nil connection. *)
Lemma legacy_accept_error_starts_relay (err : error) :
  Legacy.accept_body (inl err) Legacy.main_init
  = Legacy.mkMain [Legacy.mkRelay "localhost:5001" None Legacy.Dialling]
      [ELog ("failed to accept connection: " ++ Error err)] None.
Proof. reflexivity. Qed.

(* ===================================================================== *)
(** * Further properties of the loader, the start of [main] and the
      selector *)
(* ===================================================================== *)

(** X1.  [loadConfig] returns a configuration with a nil error or a nil
    configuration with an error, never both nil and never both set; so
    [main] never reads a field of a nil configuration. *)
Theorem loadConfig_config_xor_error (fs : FS) (filename : string)
  (listen : option error) :
  ((exists config, loadConfig fs filename = (Some config, None))
   \/ (exists err, loadConfig fs filename = (None, Some err)))
  /\ main_boot fs listen <> NilConfig.
Proof.
  assert (Hcases : forall name,
    (exists config, loadConfig fs name = (Some config, None))
    \/ (exists err, loadConfig fs name = (None, Some err))).
  { intros name. unfold loadConfig.
    destruct (os_Open fs name) as [e | file].
    - left. eexists. reflexivity.
    - destruct (Decode file _) as [e | config'].
      + right. eexists. reflexivity.
      + left. eexists. reflexivity. }
  split; [apply Hcases |].
  unfold main_boot.
  destruct (Hcases ConfigFile) as [(config & ->) | (err & ->)].
  - destruct listen; discriminate.
  - discriminate.
Qed.

(** X2.  When [config.json] cannot be opened, [main] starts with the
    default configuration: it serves it if the listener can be created
    and stops with the listener's error otherwise. *)
Theorem main_boot_without_file (fs : FS) (listen : option error)
  (e : error) :
  os_Open fs ConfigFile = inl e ->
  main_boot fs listen
  = match listen with
    | Some err => Fatal ("failed to listen: " ++ Error err)
    | None => Serving defaultConfig (main_init defaultConfig)
    end.
Proof.
  intros Hopen. unfold main_boot, loadConfig. rewrite Hopen.
  destruct listen; reflexivity.
Qed.

Lemma main_boot_without_file_witness :
  main_boot emptyFS None = Serving defaultConfig (main_init defaultConfig).
Proof.
  exact (main_boot_without_file emptyFS None noFile eq_refl).
Defined.

(** X3.  When [config.json] opens but does not decode, [main] stops
    before it creates a listener, with the decoder's error under both
    prefixes. *)
Theorem main_boot_undecodable_file (fs : FS) (listen : option error)
  (file : file_body) (e : error) :
  os_Open fs ConfigFile = inr file ->
  Decode file defaultConfig = inl e ->
  main_boot fs listen
  = Fatal ("failed to load configuration: "
             ++ ("failed to decode configuration: " ++ Error e)).
Proof.
  intros Hopen Hdec. unfold main_boot, loadConfig. rewrite Hopen.
  change (mkConfig DefaultListenAddr ([] ++ DefaultServers)
            DefaultConnectionTimeout) with defaultConfig.
  rewrite Hdec. reflexivity.
Qed.

Lemma main_boot_undecodable_file_witness :
  main_boot truncatedFS None
  = Fatal ("failed to load configuration: "
             ++ ("failed to decode configuration: " ++ "unexpected EOF")).
Proof.
  exact (main_boot_undecodable_file truncatedFS None
           (Malformed (mkError KSyntax "unexpected EOF"))
           (mkError KSyntax "unexpected EOF") eq_refl eq_refl).
Defined.

(** Decoding a member changes only the field its key addresses. *)
Lemma decode_member_other_fields (st st' : Decoding)
  (k : string) (v : json) :
  decode_member st (k, v) = inr st' ->
  (field_of_key k <> Some FListenAddr ->
   ListenAddr (decoded st') = ListenAddr (decoded st))
  /\ (field_of_key k <> Some FServer ->
      Server (decoded st') = Server (decoded st))
  /\ (field_of_key k <> Some FConnectionTimeout ->
      ConnectionTimeout (decoded st') = ConnectionTimeout (decoded st)).
Proof.
  unfold decode_member, decode_server. intros Hdec.
  destruct (field_of_key k) as [[ | | ] |].
  - destruct v; try discriminate; injection Hdec as <-;
      repeat split; intros H; try reflexivity; congruence.
  - destruct v; try discriminate.
    + injection Hdec as <-. repeat split; intros H; try reflexivity;
        congruence.
    + destruct (decode_elems (backing st) elems); [discriminate |].
      destruct elems; injection Hdec as <-;
        repeat split; intros H; try reflexivity; congruence.
  - destruct v; try discriminate.
    + injection Hdec as <-. repeat split; intros H; try reflexivity;
        congruence.
    + destruct ((int_min <=? z) && (z <=? int_max)); [| discriminate].
      injection Hdec as <-. repeat split; intros H; try reflexivity;
        congruence.
  - injection Hdec as <-. repeat split.
Qed.

Lemma decode_members_other_fields (ms : list (string * json)) :
  forall st st',
    decode_members st ms = inr st' ->
    (~ mentions FListenAddr ms ->
     ListenAddr (decoded st') = ListenAddr (decoded st))
    /\ (~ mentions FServer ms -> Server (decoded st') = Server (decoded st))
    /\ (~ mentions FConnectionTimeout ms ->
        ConnectionTimeout (decoded st') = ConnectionTimeout (decoded st)).
Proof.
  induction ms as [| [k v] ms IH]; intros st st' Hdec;
    cbn [decode_members] in Hdec.
  - injection Hdec as <-. repeat split.
  - destruct (decode_member st (k, v)) as [e | c1] eqn:Hm;
      [discriminate |].
    destruct (decode_member_other_fields _ _ _ _ Hm) as (H1 & H2 & H3).
    destruct (IH _ _ Hdec) as (I1 & I2 & I3).
    assert (Hhead : forall f, ~ mentions f ((k, v) :: ms) ->
                              field_of_key k <> Some f).
    { intros f Hno Hk. apply Hno. exists k, v. split; [left; reflexivity |].
      exact Hk. }
    assert (Htail : forall f, ~ mentions f ((k, v) :: ms) ->
                              ~ mentions f ms).
    { intros f Hno (k' & v' & Hin & Hk). apply Hno. exists k', v'.
      split; [right; exact Hin | exact Hk]. }
    repeat split; intros Hno.
    + rewrite (I1 (Htail _ Hno)). apply H1. apply Hhead. exact Hno.
    + rewrite (I2 (Htail _ Hno)). apply H2. apply Hhead. exact Hno.
    + rewrite (I3 (Htail _ Hno)). apply H3. apply Hhead. exact Hno.
Qed.

(** X4.  A configuration loaded from a JSON object keeps the default of
    every field that no member of the object addresses. *)
Theorem loadConfig_keeps_defaults (fs : FS) (filename : string)
  (ms : list (string * json)) (config : Config) :
  os_Open fs filename = inr (Doc (JObject ms)) ->
  loadConfig fs filename = (Some config, None) ->
  (~ mentions FListenAddr ms -> ListenAddr config = "localhost:8080")
  /\ (~ mentions FServer ms ->
      Server config
      = ["localhost:5001"; "localhost:5002"; "localhost:5003"])
  /\ (~ mentions FConnectionTimeout ms -> ConnectionTimeout config = 60).
Proof.
  intros Hopen Hload. unfold loadConfig in Hload. rewrite Hopen in Hload.
  cbn [Decode] in Hload.
  destruct (decode_members _ ms) as [e | st] eqn:Hdec; [discriminate |].
  injection Hload as <-.
  exact (decode_members_other_fields ms _ _ Hdec).
Qed.

Lemma loadConfig_keeps_defaults_witness :
  exists config,
    loadConfig emptyServersFS ConfigFile = (Some config, None)
    /\ ListenAddr config = "localhost:8080"
    /\ ConnectionTimeout config = 60.
Proof.
  eexists. split; [reflexivity |].
  destruct (loadConfig_keeps_defaults emptyServersFS ConfigFile
              [("server", JArray [])] _ eq_refl eq_refl) as (H1 & _ & H3).
  split.
  - apply H1. intros (k & v & [Hin | []] & Hk).
    injection Hin as <- <-. discriminate.
  - apply H3. intros (k & v & [Hin | []] & Hk).
    injection Hin as <- <-. discriminate.
Defined.

Lemma wrap64_range (z : Z) :
  - 9223372036854775808 <= wrap64 z < 9223372036854775808.
Proof.
  unfold wrap64.
  change (2 ^ 63) with 9223372036854775808.
  change (2 ^ 64) with 18446744073709551616.
  pose proof (Z.mod_pos_bound (z + 9223372036854775808)
                18446744073709551616 ltac:(lia)).
  lia.
Qed.

Lemma wrap64_small (z : Z) :
  - 9223372036854775808 <= z < 9223372036854775808 -> wrap64 z = z.
Proof.
  intros Hz. unfold wrap64.
  change (2 ^ 63) with 9223372036854775808.
  change (2 ^ 64) with 18446744073709551616.
  rewrite Z.mod_small by lia. lia.
Qed.

(** X5.  The duration [main] gives its timer is the configured number
    of seconds exactly when that number lies between -9223372036 and
    9223372036; outside, the 64-bit product has wrapped around. *)
Theorem timeout_of_exact_iff (config : Config) :
  timeout_of config = ConnectionTimeout config * 1000000000
  <-> - 9223372036 <= ConnectionTimeout config <= 9223372036.
Proof.
  unfold timeout_of, mul_Duration, Second.
  split.
  - intros Heq.
    pose proof (wrap64_range (1000000000 * ConnectionTimeout config)) as Hr.
    rewrite Heq in Hr. lia.
  - intros Hr. rewrite wrap64_small by lia. lia.
Qed.

(** X6.  With a single backend the selector returns that backend,
    whatever the seed and the generator. *)
Theorem chooseBackend_single `{R : Rand} (now : Z) (b : string) :
  chooseBackend now [b] = Ok b.
Proof.
  unfold chooseBackend. cbn [List.length Z.of_nat Pos.of_succ_nat].
  rewrite rand_Intn_positive by lia. cbn [Go.bind].
  pose proof (draw_range now 1 ltac:(lia)) as Hd.
  assert (H0 : draw now 1 = 0) by lia.
  rewrite H0. reflexivity.
Qed.

(** X7.  The loader checks no value: a file that sets only the
    connection timeout, to any integer an [int] can hold (zero and
    negative ones included), loads without error, with that timeout and
    the default address and servers. *)
Theorem loadConfig_accepts_any_timeout (fs : FS) (filename : string)
  (z : Z) :
  os_Open fs filename = inr (Doc (JObject [("connectionTimeout", JInt z)])) ->
  - 9223372036854775808 <= z <= 9223372036854775807 ->
  loadConfig fs filename
  = (Some (mkConfig "localhost:8080"
             ["localhost:5001"; "localhost:5002"; "localhost:5003"] z),
     None).
Proof.
  intros Hopen Hz. unfold loadConfig. rewrite Hopen.
  cbn [Decode decode_members].
  assert (Hkey : field_of_key "connectionTimeout" = Some FConnectionTimeout)
    by reflexivity.
  unfold decode_member. rewrite Hkey.
  assert (Hin : (int_min <=? z) && (z <=? int_max) = true).
  { unfold int_min, int_max.
    change (2 ^ 63) with 9223372036854775808.
    apply andb_true_intro. split; apply Z.leb_le; lia. }
  rewrite Hin. reflexivity.
Qed.

Lemma loadConfig_accepts_any_timeout_witness :
  loadConfig
    (fun _ => inr (Doc (JObject [("connectionTimeout", JInt (-5))])))
    ConfigFile
  = (Some (mkConfig "localhost:8080"
             ["localhost:5001"; "localhost:5002"; "localhost:5003"] (-5)),
     None).
Proof.
  apply (loadConfig_accepts_any_timeout
           (fun _ => inr (Doc (JObject [("connectionTimeout", JInt (-5))])))
           ConfigFile (-5)).
  - reflexivity.
  - lia.
Defined.

(* ===================================================================== *)
(** * Further properties of the relay *)
(* ===================================================================== *)

Section RelayMore.

Variables (backend : string) (c : Conn).

Lemma proxy_step_counter (l : Label) (s s' : ProxyState) :
  proxy_inv backend c s ->
  wg s = count_running s ->
  proxy_step backend c l s = Some s' ->
  wg s' = count_running s'.
Proof.
  unfold proxy_step, count_running. intros Hinv Hwg Hstep.
  destruct (pc s) eqn:Hpc.
  - unfold proxy_inv in Hinv. rewrite Hpc in Hinv. subst s.
    destruct l as [[err |] | | | ]; try discriminate;
      injection Hstep as <-; reflexivity.
  - destruct l as [r | d bytes | d r | ]; try discriminate.
    + destruct (running d s && client_open s && backend_open s);
        [| discriminate].
      injection Hstep as <-. exact Hwg.
    + destruct (running d s) eqn:Hrun; [| discriminate].
      injection Hstep as <-. cbn.
      destruct d; cbn in Hrun; rewrite Hrun in Hwg;
        destruct (c2b_running s), (b2c_running s); try discriminate; lia.
    + destruct (wg s =? 0); [| discriminate].
      injection Hstep as <-. exact Hwg.
  - destruct l; discriminate.
  - destruct l; discriminate.
Qed.

Lemma proxy_run_counter (ls : list Label) :
  forall s s',
    proxy_inv backend c s ->
    wg s = count_running s ->
    proxy_run backend c ls s = Some s' ->
    wg s' = count_running s'.
Proof.
  induction ls as [| l ls IH]; intros s s' Hinv Hwg Hrun; cbn in Hrun.
  - injection Hrun as <-. exact Hwg.
  - destruct (proxy_step backend c l s) as [s1 |] eqn:Hstep;
      [| discriminate].
    eapply IH; [| | exact Hrun].
    + eapply proxy_step_inv; eassumption.
    + eapply proxy_step_counter; eassumption.
Qed.

Lemma proxy_step_shape (l : Label) (s s' : ProxyState) :
  proxy_shape backend c s ->
  proxy_step backend c l s = Some s' ->
  proxy_shape backend c s'.
Proof.
  unfold proxy_shape, proxy_step. intros Hsh Hstep.
  destruct (pc s) eqn:Hpc.
  - destruct l as [[err |] | | | ]; try discriminate;
      injection Hstep as <-; cbn; [exact I |].
    rewrite Hsh. exists []. split; [reflexivity | constructor].
  - destruct Hsh as (mid & Hmid & Hall).
    destruct l as [r | d bytes | d r | ]; try discriminate.
    + destruct (running d s && client_open s && backend_open s);
        [| discriminate].
      injection Hstep as <-. cbn.
      exists (mid ++ [EForward d bytes])%list. split.
      * rewrite Hmid. unfold opening. reflexivity.
      * apply Forall_app. split; [exact Hall | repeat constructor].
    + destruct (running d s); [| discriminate].
      injection Hstep as <-. cbn.
      assert (Hnew :
        exists mid',
          (trace s ++ match r with
                      | Some err => [ELog (copy_failed d err)]
                      | None => []
                      end)%list = (opening backend ++ mid')%list
          /\ Forall copying_effect mid').
      { exists (mid ++ match r with
                       | Some err => [ELog (copy_failed d err)]
                       | None => []
                       end)%list.
        split.
        - rewrite Hmid. unfold opening. reflexivity.
        - apply Forall_app. split; [exact Hall |].
          destruct r; repeat constructor. }
      destruct (wg s - 1 <? 0); [exact I | exact Hnew].
    + destruct (wg s =? 0); [| discriminate].
      injection Hstep as <-. cbn.
      exists mid. split; [| exact Hall].
      rewrite Hmid. unfold opening. reflexivity.
  - destruct l; discriminate.
  - destruct l; discriminate.
Qed.

Lemma proxy_run_shape (ls : list Label) :
  forall s s',
    proxy_shape backend c s ->
    proxy_run backend c ls s = Some s' ->
    proxy_shape backend c s'.
Proof.
  induction ls as [| l ls IH]; intros s s' Hsh Hrun; cbn in Hrun.
  - injection Hrun as <-. exact Hsh.
  - destruct (proxy_step backend c l s) as [s1 |] eqn:Hstep;
      [| discriminate].
    eapply IH; [| exact Hrun].
    eapply proxy_step_shape; eassumption.
Qed.

(** A log line of the relay comes from a copy that failed. *)
Lemma proxy_run_log_origin (ls : list Label) (line : string) :
  forall s s',
    proxy_run backend c ls s = Some s' ->
    In (ELog line) (trace s') ->
    In (ELog line) (trace s)
    \/ exists d err,
         In (LCopyRet d (Some err)) ls /\ line = copy_failed d err.
Proof.
  induction ls as [| l ls IH]; intros s s' Hrun Hin; cbn in Hrun.
  - injection Hrun as <-. left. exact Hin.
  - destruct (proxy_step backend c l s) as [s1 |] eqn:Hstep;
      [| discriminate].
    destruct (IH _ _ Hrun Hin) as [Hin1 | (d & err & Hl & Hline)].
    + unfold proxy_step in Hstep.
      destruct l as [[err |] | d bytes | d r | ], (pc s);
        try discriminate;
        repeat match type of Hstep with
               | (if ?b then _ else _) = _ => destruct b; try discriminate
               end;
        injection Hstep as <-; cbn in Hin1;
        apply in_app_or in Hin1; destruct Hin1 as [Hin1 | Hin1];
        try (left; exact Hin1);
        try (destruct r as [err |]);
        cbn in Hin1;
        try (intuition discriminate).
      all: destruct Hin1 as [Heq | []]; injection Heq as <-;
        right; exists d, err; split; [left; reflexivity | reflexivity].
    + right. exists d, err. split; [right; exact Hl | exact Hline].
Qed.

End RelayMore.

(** X8.  In every state the relay reaches, its wait-group counter is
    the number of copy goroutines still running, between 0 and 2; the
    counter never goes negative and no goroutine panics. *)
Theorem proxy_waitgroup_counts_copies (backend : string) (c : Conn)
  (ls : list Label) (s : ProxyState) :
  proxy backend c ls = Some s ->
  wg s = count_running s
  /\ 0 <= wg s <= 2
  /\ (wg s = 0 <-> c2b_running s = false /\ b2c_running s = false)
  /\ forall msg, pc s <> Crashed msg.
Proof.
  intros Hrun.
  pose proof (proxy_reachable_inv _ _ _ _ Hrun) as Hinv.
  assert (Hwg : wg s = count_running s).
  { eapply proxy_run_counter; [apply proxy_init_inv | reflexivity |].
    exact Hrun. }
  split; [exact Hwg |]. rewrite Hwg. unfold count_running.
  repeat split.
  - destruct (c2b_running s), (b2c_running s); lia.
  - destruct (c2b_running s), (b2c_running s); lia.
  - destruct (c2b_running s), (b2c_running s); (reflexivity || lia).
  - destruct (c2b_running s), (b2c_running s); (reflexivity || lia).
  - intros [H1 H2]. rewrite H1, H2. reflexivity.
  - intros msg Hpc. unfold proxy_inv in Hinv. rewrite Hpc in Hinv.
    exact Hinv.
Qed.

Lemma proxy_waitgroup_counts_copies_witness :
  exists s,
    proxy "localhost:5001" sampleConn
      [LDial None; LCopyRet BackendToClient None] = Some s
    /\ wg s = 1.
Proof.
  eexists. split; [reflexivity |].
  destruct (proxy_waitgroup_counts_copies "localhost:5001" sampleConn
              [LDial None; LCopyRet BackendToClient None] _ eq_refl)
    as (Hwg & _).
  exact Hwg.
Defined.

(** X9.  The relay does things in one order.  While it waits, its
    trace is one dial and the start of the two copies, followed by
    forwarded bytes and logged copy errors only; when it has returned
    nil, the same followed by the closing print, the close of the
    backend, the close of the client and the return.  So it dials once,
    forwards nothing before the dial, and forwards and logs nothing
    after the first close. *)
Theorem proxy_trace_shape (backend : string) (c : Conn)
  (ls : list Label) (s : ProxyState) :
  proxy backend c ls = Some s ->
  (pc s = AtWait ->
   exists mid,
     trace s
     = ([EDial (mkDial "tcp" backend (Some proxy_dial_timeout));
         ESpawnCopy ClientToBackend; ESpawnCopy BackendToClient]
          ++ mid)%list
     /\ Forall copying_effect mid)
  /\ (pc s = Returned None ->
      exists mid,
        trace s
        = ([EDial (mkDial "tcp" backend (Some proxy_dial_timeout));
            ESpawnCopy ClientToBackend; ESpawnCopy BackendToClient]
             ++ mid
             ++ [EPrint (closed_line c backend); ECloseBackend;
                 ECloseClient; EReturn None])%list
        /\ Forall copying_effect mid).
Proof.
  intros Hrun.
  assert (Hsh : proxy_shape backend c s).
  { eapply proxy_run_shape; [| exact Hrun]. reflexivity. }
  unfold proxy_shape in Hsh.
  split; intros Hpc; rewrite Hpc in Hsh; exact Hsh.
Qed.

Lemma proxy_trace_shape_witness :
  exists s mid,
    proxy "localhost:5001" sampleConn
      [LDial None;
       LCopy ClientToBackend [Byte.x47; Byte.x45; Byte.x54];
       LCopyRet ClientToBackend None;
       LCopyRet BackendToClient (Some resetByPeer);
       LJoin] = Some s
    /\ trace s
       = (opening "localhost:5001" ++ mid
            ++ teardown "localhost:5001" sampleConn)%list
    /\ Forall copying_effect mid.
Proof.
  eexists.
  destruct (proj2 (proxy_trace_shape "localhost:5001" sampleConn
              [LDial None;
               LCopy ClientToBackend [Byte.x47; Byte.x45; Byte.x54];
               LCopyRet ClientToBackend None;
               LCopyRet BackendToClient (Some resetByPeer);
               LJoin] _ eq_refl) eq_refl) as (mid & Hmid & Hall).
  exists mid. split; [reflexivity |]. split; [exact Hmid | exact Hall].
Defined.

(** X10.  The relay's log holds exactly the copy failures of the
    schedule.  A line is in the log if and only if the client-to-backend
    copy returned an error and the line is "failed to copy from client to
    backend: " followed by the error's text, or the backend-to-client
    copy returned an error and the line is "failed to copy from backend
    to client: " followed by the error's text. *)
Theorem proxy_logs_exactly_copy_failures (backend : string) (c : Conn)
  (ls : list Label) (s : ProxyState) (line : string) :
  proxy backend c ls = Some s ->
  (In (ELog line) (trace s)
   <-> (exists err,
          In (LCopyRet ClientToBackend (Some err)) ls
          /\ line = "failed to copy from client to backend: " ++ Error err)
       \/ (exists err,
             In (LCopyRet BackendToClient (Some err)) ls
             /\ line
                = "failed to copy from backend to client: " ++ Error err)).
Proof.
  intros Hrun. split.
  - intros Hin.
    destruct (proxy_run_log_origin backend c ls line _ _ Hrun Hin)
      as [[] | (d & err & Hl & ->)].
    destruct d; [left | right]; exists err; split;
      first [exact Hl | reflexivity].
  - intros [(err & Hl & ->) | (err & Hl & ->)].
    + exact (proxy_run_logs backend c ls ClientToBackend err _ _ Hrun Hl).
    + exact (proxy_run_logs backend c ls BackendToClient err _ _ Hrun Hl).
Qed.

Lemma proxy_logs_exactly_copy_failures_witness :
  exists s,
    proxy "localhost:5001" sampleConn
      [LDial None; LCopyRet ClientToBackend None;
       LCopyRet BackendToClient (Some resetByPeer); LJoin] = Some s
    /\ In (ELog
             ("failed to copy from backend to client: "
                ++ "read tcp 127.0.0.1:8080: connection reset by peer"))
         (trace s)
    /\ ~ In (ELog
               ("failed to copy from client to backend: "
                  ++ "read tcp 127.0.0.1:8080: connection reset by peer"))
           (trace s).
Proof.
  eexists. split; [reflexivity |].
  match goal with
  | |- In _ (trace ?s0) /\ _ =>
      pose proof
        (fun line =>
           proxy_logs_exactly_copy_failures "localhost:5001" sampleConn
             [LDial None; LCopyRet ClientToBackend None;
              LCopyRet BackendToClient (Some resetByPeer); LJoin]
             s0 line eq_refl) as Hlog
  end.
  split.
  - apply Hlog. right. exists resetByPeer.
    split; [cbn; auto | reflexivity].
  - intros Hin. apply Hlog in Hin.
    destruct Hin as [(err & Hl & _) | (err & _ & Heq)].
    + cbn in Hl. intuition discriminate.
    + discriminate.
Defined.

(* ===================================================================== *)
(** * Further properties of the listener loop *)
(* ===================================================================== *)

Section ListenerMore.

Context `{R : Rand}.
Variable config : Config.

Lemma chooseBackend_Ok_In (now : Z) (servers : list string) (b : string) :
  chooseBackend now servers = Ok b -> In b servers.
Proof.
  unfold chooseBackend, rand_Intn, index.
  destruct (Z.of_nat (List.length servers) <=? 0); [discriminate |].
  cbn [Go.bind].
  destruct ((draw now (Z.of_nat (List.length servers)) <? 0)
            || (Z.of_nat (List.length servers)
                <=? draw now (Z.of_nat (List.length servers))));
    [discriminate |].
  destruct (nth_error servers _) as [a |] eqn:Hnth; [| discriminate].
  intros Heq. injection Heq as <-. eapply nth_error_In. exact Hnth.
Qed.

(** What one step does to the relays started and to the wait group. *)
Lemma main_step_relays (ev : Event) (s s' : MainState) :
  main_step config ev s = Some s' ->
  (exists conn now b,
      ev = EvAccept (inr conn) now
      /\ chooseBackend now (Server config) = Ok b
      /\ relays s' = (relays s ++ [(b, conn)])%list
      /\ m_wg s' = m_wg s + 1)
  \/ (exists conn now msg,
        ev = EvAccept (inr conn) now
        /\ chooseBackend now (Server config) = Panic msg
        /\ m_pc s' = Panicking msg
        /\ relays s' = relays s /\ m_wg s' = m_wg s)
  \/ (exists err,
        ev = EvRelayDone err /\ 0 < m_wg s
        /\ relays s' = relays s /\ m_wg s' = m_wg s - 1)
  \/ (accepted [ev] = [] /\ finished [ev] = O
      /\ relays s' = relays s /\ m_wg s' = m_wg s).
Proof.
  unfold main_step. intros Hstep.
  assert (Hbody : forall r now,
    Some (accept_body config r now s) = Some s' ->
    ev = EvAccept r now ->
    (exists conn now b,
        ev = EvAccept (inr conn) now
        /\ chooseBackend now (Server config) = Ok b
        /\ relays s' = (relays s ++ [(b, conn)])%list
        /\ m_wg s' = m_wg s + 1)
    \/ (exists conn now msg,
          ev = EvAccept (inr conn) now
          /\ chooseBackend now (Server config) = Panic msg
          /\ m_pc s' = Panicking msg
          /\ relays s' = relays s /\ m_wg s' = m_wg s)
    \/ (exists err,
          ev = EvRelayDone err /\ 0 < m_wg s
          /\ relays s' = relays s /\ m_wg s' = m_wg s - 1)
    \/ (accepted [ev] = [] /\ finished [ev] = O
        /\ relays s' = relays s /\ m_wg s' = m_wg s)).
  { intros r now Heq ->. injection Heq as <-. unfold accept_body.
    destruct r as [err | conn].
    - right. right. right. repeat split.
    - destruct (chooseBackend now (Server config)) as [b | msg] eqn:Hch.
      + left. exists conn, now, b. repeat split; exact Hch.
      + right. left. exists conn, now, msg. repeat split; exact Hch. }
  assert (Hafter : forall b,
    after_loop b s = Some s' ->
    relays s' = relays s /\ m_wg s' = m_wg s).
  { intros b Ha. unfold after_loop in Ha.
    destruct (m_pc s); try discriminate.
    - destruct (sig_chan s), (timer_chan s); try discriminate;
        try (destruct b); injection Ha as <-; split; reflexivity.
    - destruct (m_wg s =? 0); [| discriminate].
      injection Ha as <-. split; reflexivity.
    - destruct (m_wg s =? 0); [| discriminate].
      injection Ha as <-. split; reflexivity. }
  destruct ev as [r now | sg | | err | b].
  - destruct (m_pc s); try discriminate.
    destruct r as [err | conn].
    + destruct (accept_can_fail_with err s); [| discriminate].
      eapply Hbody; [exact Hstep | reflexivity].
    + destruct (listener_open s); [| discriminate].
      eapply Hbody; [exact Hstep | reflexivity].
  - right. right. right.
    destruct (m_pc s); try discriminate; injection Hstep as <-;
      repeat split.
  - right. right. right.
    destruct (m_pc s); try discriminate;
      (destruct (timer_armed s); [| discriminate]);
      injection Hstep as <-; repeat split.
  - right. right. left. exists err.
    destruct (m_pc s); try discriminate;
      (destruct (Z.ltb_spec 0 (m_wg s)) as [Hpos | _]; [| discriminate]);
      injection Hstep as <-; repeat split; exact Hpos.
  - right. right. right.
    assert (Ha : after_loop b s = Some s').
    { destruct (m_pc s); try discriminate; exact Hstep. }
    destruct (Hafter b Ha) as [H1 H2]. repeat split; assumption.
Qed.

Lemma main_run_accounting (evs : list Event) :
  forall s s',
    main_run config evs s = Some s' ->
    0 <= m_wg s ->
    0 <= m_wg s'
    /\ m_wg s' - Z.of_nat (List.length (relays s'))
       = m_wg s - Z.of_nat (List.length (relays s))
         - Z.of_nat (finished evs).
Proof.
  induction evs as [| ev evs IH]; intros s s' Hrun Hwg; cbn in Hrun.
  - injection Hrun as <-. cbn. split; [exact Hwg | lia].
  - destruct (main_step config ev s) as [s1 |] eqn:Hstep; [| discriminate].
    assert (Hfin : finished (ev :: evs)
                   = (finished [ev] + finished evs)%nat).
    { destruct ev; reflexivity. }
    rewrite Hfin.
    destruct (main_step_relays _ _ _ Hstep)
      as [(conn & now & b & -> & _ & Hr & Hw)
         | [(conn & now & msg & -> & _ & _ & Hr & Hw)
           | [(err & -> & Hpos & Hr & Hw)
             | (_ & Hf & Hr & Hw)]]];
      (destruct (IH _ _ Hrun ltac:(lia)) as [H0 Hd]);
      (split; [exact H0 |]); rewrite Hd, Hr, Hw;
      try rewrite Hf; try rewrite length_app; cbn; lia.
Qed.

Lemma main_run_backends (evs : list Event) :
  forall s s',
    main_run config evs s = Some s' ->
    (forall b conn, In (b, conn) (relays s) -> In b (Server config)) ->
    forall b conn, In (b, conn) (relays s') -> In b (Server config).
Proof.
  induction evs as [| ev evs IH]; intros s s' Hrun Hold; cbn in Hrun.
  - injection Hrun as <-. exact Hold.
  - destruct (main_step config ev s) as [s1 |] eqn:Hstep; [| discriminate].
    eapply IH; [exact Hrun |].
    intros b conn Hin.
    destruct (main_step_relays _ _ _ Hstep)
      as [(conn' & now & b' & _ & Hch & Hr & _)
         | [(conn' & now & msg & _ & _ & _ & Hr & _)
           | [(err & _ & _ & Hr & _)
             | (_ & _ & Hr & _)]]];
      rewrite Hr in Hin; try (eapply Hold; exact Hin).
    apply in_app_or in Hin. destruct Hin as [Hin | [Heq | []]].
    + eapply Hold; exact Hin.
    + injection Heq as <- <-. eapply chooseBackend_Ok_In. exact Hch.
Qed.

Lemma main_run_accepted (evs : list Event) :
  Server config <> [] ->
  forall s s',
    main_run config evs s = Some s' ->
    map snd (relays s') = (map snd (relays s) ++ accepted evs)%list.
Proof.
  intros Hne.
  induction evs as [| ev evs IH]; intros s s' Hrun; cbn in Hrun.
  - injection Hrun as <-. cbn. symmetry. apply app_nil_r.
  - destruct (main_step config ev s) as [s1 |] eqn:Hstep; [| discriminate].
    rewrite (IH _ _ Hrun).
    assert (Hacc : accepted (ev :: evs)
                   = (accepted [ev] ++ accepted evs)%list).
    { destruct ev as [[err | conn] now | | | | ]; reflexivity. }
    rewrite Hacc.
    destruct (main_step_relays _ _ _ Hstep)
      as [(conn & now & b & -> & _ & Hr & _)
         | [(conn & now & msg & -> & Hch & _)
           | [(err & -> & _ & Hr & _)
             | (Ha & _ & Hr & _)]]].
    + rewrite Hr, map_app. cbn. rewrite <- app_assoc. reflexivity.
    + destruct (chooseBackend_nth now (Server config) Hne) as (b & Hb & _).
      congruence.
    + rewrite Hr. reflexivity.
    + rewrite Hr, Ha. reflexivity.
Qed.

Lemma main_run_no_backend (evs : list Event) :
  Server config = [] ->
  forall s s',
    main_run config evs s = Some s' ->
    relays s = [] -> m_wg s = 0 ->
    relays s' = [] /\ m_wg s' = 0.
Proof.
  intros Hsrv.
  induction evs as [| ev evs IH]; intros s s' Hrun Hr0 Hw0; cbn in Hrun.
  - injection Hrun as <-. split; assumption.
  - destruct (main_step config ev s) as [s1 |] eqn:Hstep; [| discriminate].
    destruct (main_step_relays _ _ _ Hstep)
      as [(conn & now & b & _ & Hch & _)
         | [(conn & now & msg & _ & _ & _ & Hr & Hw)
           | [(err & _ & Hpos & _)
             | (_ & _ & Hr & Hw)]]].
    + rewrite Hsrv, chooseBackend_empty in Hch. discriminate.
    + eapply IH; [exact Hrun | congruence | congruence].
    + lia.
    + eapply IH; [exact Hrun | congruence | congruence].
Qed.

(** In the loop, the channel keeps the signal it holds and takes the
    first one delivered when it is empty. *)
Lemma main_step_first_signal (ev : Event) (s s' : MainState) :
  in_loop config s ->
  main_step config ev s = Some s' ->
  sig_chan s'
  = match sig_chan s with
    | Some old => Some old
    | None => first_signal [ev]
    end.
Proof.
  assert (Hsame : forall o : option Signal,
    o = match o with Some old => Some old | None => None end).
  { intros [x |]; reflexivity. }
  intros [[Hpc Hopen] | (Hsrv & msg & [Hpc | Hpc])] Hstep;
    unfold main_step in Hstep; rewrite Hpc in Hstep; try discriminate.
  - destruct ev as [r now | sg | | err | b].
    + destruct r as [err | conn];
        [destruct (accept_can_fail_with err s); [| discriminate]
        | rewrite Hopen in Hstep];
        injection Hstep as <-.
      * change (sig_chan (accept_body config (inl err) now s)
                = match sig_chan s with
                  | Some old => Some old
                  | None => None
                  end).
        rewrite accept_body_sig_chan. apply Hsame.
      * change (sig_chan (accept_body config (inr conn) now s)
                = match sig_chan s with
                  | Some old => Some old
                  | None => None
                  end).
        rewrite accept_body_sig_chan. apply Hsame.
    + injection Hstep as <-. reflexivity.
    + destruct (timer_armed s); [| discriminate].
      injection Hstep as <-. apply Hsame.
    + destruct (0 <? m_wg s); [| discriminate].
      injection Hstep as <-. apply Hsame.
    + unfold after_loop in Hstep. rewrite Hpc in Hstep. discriminate.
  - destruct ev as [r now | sg | | err | b].
    + destruct r; discriminate.
    + injection Hstep as <-. reflexivity.
    + destruct (timer_armed s); [| discriminate].
      injection Hstep as <-. apply Hsame.
    + destruct (0 <? m_wg s); [| discriminate].
      injection Hstep as <-. apply Hsame.
    + unfold after_loop in Hstep. rewrite Hpc in Hstep.
      destruct (m_wg s =? 0); [| discriminate].
      injection Hstep as <-. apply Hsame.
Qed.

Lemma main_run_first_signal (evs : list Event) :
  forall s s',
    in_loop config s ->
    main_run config evs s = Some s' ->
    sig_chan s'
    = match sig_chan s with
      | Some old => Some old
      | None => first_signal evs
      end.
Proof.
  induction evs as [| ev evs IH]; intros s s' Hin Hrun; cbn in Hrun.
  - injection Hrun as <-. destruct (sig_chan s); reflexivity.
  - destruct (main_step config ev s) as [s1 |] eqn:Hstep; [| discriminate].
    destruct (main_step_in_loop _ _ _ _ Hin Hstep) as [Hin1 _].
    rewrite (IH _ _ Hin1 Hrun).
    rewrite (main_step_first_signal _ _ _ Hin Hstep).
    destruct (sig_chan s); [reflexivity |].
    destruct ev; reflexivity.
Qed.

End ListenerMore.

(** X12.  The wait group of [main] counts the relays in flight: after
    any run it equals the number of relays started minus the number of
    relays that have finished, and it is never negative. *)
Theorem main_waitgroup_counts_relays `{R : Rand} (config : Config)
  (evs : list Event) (s : MainState) :
  main_run config evs (main_init config) = Some s ->
  m_wg s
  = Z.of_nat (List.length (relays s)) - Z.of_nat (finished evs)
  /\ 0 <= m_wg s.
Proof.
  intros Hrun.
  destruct (main_run_accounting config evs _ _ Hrun ltac:(cbn; lia))
    as [H0 Hd].
  cbn in Hd. split; [lia | exact H0].
Qed.

Lemma main_waitgroup_counts_relays_witness :
  exists s,
    @main_run modRand defaultConfig sampleEvents (main_init defaultConfig)
    = Some s
    /\ m_wg s = 0 /\ List.length (relays s) = 1%nat.
Proof.
  pose proof sampleRun_eq as Hrun. unfold sampleRun in Hrun.
  match type of Hrun with
  | _ = Some ?s0 => exists s0
  end.
  split; [exact Hrun |].
  destruct (@main_waitgroup_counts_relays modRand defaultConfig sampleEvents
              _ Hrun) as [Hwg _].
  split; [exact Hwg | reflexivity].
Defined.

(** X13.  Every relay the loop has started proxies to a backend that
    is a member of the configured server list. *)
Theorem main_relays_use_configured_backends `{R : Rand} (config : Config)
  (evs : list Event) (s : MainState) (backend : string) (conn : Conn) :
  main_run config evs (main_init config) = Some s ->
  In (backend, conn) (relays s) ->
  In backend (Server config).
Proof.
  intros Hrun Hin.
  eapply (main_run_backends config evs _ _ Hrun); [| exact Hin].
  intros b c' [].
Qed.

Lemma main_relays_use_configured_backends_witness :
  In "localhost:5001" (Server defaultConfig).
Proof.
  pose proof sampleRun_eq as Hrun. unfold sampleRun in Hrun.
  refine (@main_relays_use_configured_backends modRand defaultConfig
            sampleEvents _ "localhost:5001" sampleConn Hrun _).
  left. reflexivity.
Defined.

(** X14.  With a non-empty server list the loop starts one relay for
    every connection accepted, no other, in the order of acceptance:
    the connections of the relays started are the connections
    accepted. *)
Theorem main_relays_every_accepted_connection `{R : Rand}
  (config : Config) (evs : list Event) (s : MainState) :
  Server config <> [] ->
  main_run config evs (main_init config) = Some s ->
  map snd (relays s) = accepted evs.
Proof.
  intros Hne Hrun.
  exact (main_run_accepted config evs Hne _ _ Hrun).
Qed.

Lemma main_relays_every_accepted_connection_witness :
  exists s,
    @main_run modRand defaultConfig sampleEvents (main_init defaultConfig)
    = Some s
    /\ map snd (relays s) = [sampleConn].
Proof.
  pose proof sampleRun_eq as Hrun. unfold sampleRun in Hrun.
  match type of Hrun with
  | _ = Some ?s0 => exists s0
  end.
  split; [exact Hrun |].
  apply (@main_relays_every_accepted_connection modRand defaultConfig
           sampleEvents _).
  - cbv. discriminate.
  - exact Hrun.
Defined.

(** X15.  The signal channel of [main] holds one signal: after any run
    it holds the first signal delivered, every later one was dropped,
    and none was taken out. *)
Theorem main_keeps_first_signal `{R : Rand} (config : Config)
  (evs : list Event) (s : MainState) :
  main_run config evs (main_init config) = Some s ->
  sig_chan s = first_signal evs.
Proof.
  intros Hrun.
  exact (main_run_first_signal config evs _ _ (main_init_in_loop config)
           Hrun).
Qed.

Lemma main_keeps_first_signal_witness :
  exists s,
    @main_run modRand defaultConfig sampleEvents (main_init defaultConfig)
    = Some s
    /\ sig_chan s = Some SIGINT.
Proof.
  pose proof sampleRun_eq as Hrun. unfold sampleRun in Hrun.
  match type of Hrun with
  | _ = Some ?s0 => exists s0
  end.
  split; [exact Hrun |].
  exact (@main_keeps_first_signal modRand defaultConfig sampleEvents _ Hrun).
Defined.

(** X16.  With an empty server list the process never starts a relay:
    whatever it accepts, the relays started stay none and the wait
    group stays at zero. *)
Theorem main_without_backends_serves_nothing `{R : Rand} (config : Config)
  (evs : list Event) (s : MainState) :
  Server config = [] ->
  main_run config evs (main_init config) = Some s ->
  relays s = [] /\ m_wg s = 0.
Proof.
  intros Hsrv Hrun.
  exact (main_run_no_backend config evs Hsrv _ _ Hrun eq_refl eq_refl).
Qed.

Lemma main_without_backends_serves_nothing_witness :
  exists s,
    @main_run modRand (mkConfig "localhost:8080" [] 60)
      [EvAccept (inl tooManyFiles) 1; EvAccept (inr sampleConn) 2;
       EvSignal SIGTERM; EvSelect true]
      (main_init (mkConfig "localhost:8080" [] 60)) = Some s
    /\ relays s = [] /\ m_wg s = 0.
Proof.
  eexists. split; [vm_compute; reflexivity |].
  apply (@main_without_backends_serves_nothing modRand
           (mkConfig "localhost:8080" [] 60)
           [EvAccept (inl tooManyFiles) 1; EvAccept (inr sampleConn) 2;
            EvSignal SIGTERM; EvSelect true]).
  - reflexivity.
  - vm_compute. reflexivity.
Defined.

(* ===================================================================== *)
(** * Further properties of the earlier program *)
(* ===================================================================== *)

Lemma legacy_step_shape (backend : string) (c : Conn) (l : Label)
  (s s' : Legacy.ProxyState) :
  legacy_shape backend s ->
  Legacy.proxy_step backend c l s = Some s' ->
  legacy_shape backend s'.
Proof.
  unfold legacy_shape, Legacy.proxy_step.
  intros [-> | [(err & Hpc & Ht & H1 & H2)
                | (mid & Hpc & Ht & Hall)]] Hstep.
  - destruct l as [[err |] | d bytes | d r | ]; try discriminate;
      try (destruct d; discriminate); injection Hstep as <-.
    + right. left. exists err. repeat split.
    + right. right. exists []. repeat split. constructor.
  - rewrite Hpc in Hstep.
    destruct l as [r | d bytes | d r | ]; try discriminate;
      destruct d; cbn in Hstep;
      rewrite ?H1, ?H2 in Hstep; discriminate.
  - rewrite Hpc in Hstep.
    destruct l as [r | d bytes | d r | ]; try discriminate.
    + destruct (Legacy.running d s); [| discriminate].
      injection Hstep as <-. right. right.
      exists (mid ++ [EForward d bytes])%list. cbn.
      split; [first [exact Hpc | reflexivity] |]. split.
      * rewrite Ht. reflexivity.
      * apply Forall_app. split; [exact Hall | repeat constructor].
    + destruct (Legacy.running d s); [| discriminate].
      injection Hstep as <-. right. right. exists mid. cbn.
      repeat split; assumption.
Qed.

Lemma legacy_run_shape (backend : string) (c : Conn) (ls : list Label) :
  forall s s',
    legacy_shape backend s ->
    Legacy.proxy_run backend c ls s = Some s' ->
    legacy_shape backend s'.
Proof.
  induction ls as [| l ls IH]; intros s s' Hsh Hrun; cbn in Hrun.
  - injection Hrun as <-. exact Hsh.
  - destruct (Legacy.proxy_step backend c l s) as [s1 |] eqn:Hstep;
      [| discriminate].
    eapply IH; [| exact Hrun].
    eapply legacy_step_shape; eassumption.
Qed.

(** X17.  The earlier relay, under every schedule: it dials once,
    without a timeout; when the dial fails it returns the error and does
    nothing else; when the dial succeeds it starts the two copies and
    returns nil at once, and all that follows is forwarded bytes.  It
    never closes a connection and never logs or returns a copy error. *)
Theorem legacy_proxy_trace_shape (backend : string) (c : Conn)
  (ls : list Label) (s : Legacy.ProxyState) :
  Legacy.proxy_run backend c ls Legacy.proxy_init = Some s ->
  (ls = [] /\ Legacy.trace s = [])
  \/ (exists err,
        Legacy.pc s = Returned (Some (dial_failed backend err))
        /\ Legacy.trace s
           = [EDial (mkDial "tcp" backend None);
              EReturn (Some (dial_failed backend err))])
  \/ (exists mid,
        Legacy.pc s = Returned None
        /\ Legacy.trace s
           = ([EDial (mkDial "tcp" backend None);
               ESpawnCopy ClientToBackend; ESpawnCopy BackendToClient;
               EReturn None] ++ mid)%list
        /\ Forall forward_effect mid).
Proof.
  intros Hrun.
  assert (Hsh : legacy_shape backend s).
  { eapply legacy_run_shape; [| exact Hrun].
    left. reflexivity. }
  destruct Hsh as [Hinit | [(err & Hpc & Ht & _) | Hsucc]].
  - left. split; [| rewrite Hinit; reflexivity].
    assert (Hpc : Legacy.pc s = AtDial) by (rewrite Hinit; reflexivity).
    destruct ls as [| l ls]; [reflexivity |]. exfalso.
    cbn in Hrun.
    destruct (Legacy.proxy_step backend c l Legacy.proxy_init)
      as [s1 |] eqn:Hstep; [| discriminate].
    assert (Hnot : Legacy.pc s1 <> AtDial).
    { unfold Legacy.proxy_step in Hstep. cbn in Hstep.
      destruct l as [[err |] | d bytes | d r | ]; try discriminate;
        try (destruct d; discriminate);
        injection Hstep as <-; discriminate. }
    assert (Hkeep : forall ls' s1' s2',
      Legacy.pc s1' <> AtDial ->
      Legacy.proxy_run backend c ls' s1' = Some s2' ->
      Legacy.pc s2' <> AtDial).
    { induction ls' as [| l' ls' IH']; intros s1' s2' Hn Hr; cbn in Hr.
      - injection Hr as <-. exact Hn.
      - destruct (Legacy.proxy_step backend c l' s1') as [s3 |] eqn:Hs;
          [| discriminate].
        eapply IH'; [| exact Hr].
        unfold Legacy.proxy_step in Hs.
        destruct l' as [[err |] | d bytes | d r | ]; try discriminate;
          try (destruct (Legacy.pc s1'); try discriminate;
               injection Hs as <-; discriminate);
          (destruct (Legacy.running d s1'); [| discriminate]);
          injection Hs as <-; exact Hn. }
    exact (Hkeep _ _ _ Hnot Hrun Hpc).
  - right. left. exists err. split; assumption.
  - right. right. exact Hsucc.
Qed.

Lemma legacy_proxy_trace_shape_witness :
  exists s,
    Legacy.proxy_run "localhost:5001" sampleConn
      [LDial None; LCopy ClientToBackend [Byte.x68; Byte.x69];
       LCopyRet ClientToBackend (Some resetByPeer)]
      Legacy.proxy_init = Some s
    /\ Legacy.pc s = Returned None
    /\ ~ In ECloseClient (Legacy.trace s).
Proof.
  eexists. split; [reflexivity |].
  destruct (legacy_proxy_trace_shape "localhost:5001" sampleConn
              [LDial None; LCopy ClientToBackend [Byte.x68; Byte.x69];
               LCopyRet ClientToBackend (Some resetByPeer)] _ eq_refl)
    as [(Hnil & _) | [(err & Hpc & _) | (mid & Hpc & _ & _)]].
  - discriminate.
  - discriminate.
  - split; [exact Hpc |]. cbn. intuition discriminate.
Defined.

Lemma legacy_set_status_same (i : nat) (st : Legacy.RelayStatus)
  (l : list Legacy.Relay) :
  map (fun rl => (Legacy.r_backend rl, Legacy.r_conn rl))
    (Legacy.set_status i st l)
  = map (fun rl => (Legacy.r_backend rl, Legacy.r_conn rl)) l.
Proof.
  revert i. induction l as [| rl l IH]; intros [| i]; cbn;
    try reflexivity.
  rewrite IH. reflexivity.
Qed.

(** What one step of the earlier process does to the relays started,
    and the only way it dies. *)
Lemma legacy_main_step_relays (ev : Legacy.Event)
  (s s' : Legacy.MainState) :
  Legacy.main_step ev s = Some s' ->
  map (fun rl => (Legacy.r_backend rl, Legacy.r_conn rl)) (Legacy.relays s')
  = (map (fun rl => (Legacy.r_backend rl, Legacy.r_conn rl))
       (Legacy.relays s)
       ++ map Legacy.started (Legacy.answers [ev]))%list
  /\ (Legacy.panicked s' <> None ->
      Legacy.panicked s' = Some Legacy.nil_dereference
      /\ exists rl,
           In rl (Legacy.relays s) /\ Legacy.r_conn rl = None).
Proof.
  unfold Legacy.main_step. intros Hstep.
  destruct (Legacy.panicked s); [discriminate |].
  destruct ev as [r | i r | i].
  - injection Hstep as <-. unfold Legacy.accept_body.
    change Legacy.chooseBackend with (@Ok string "localhost:5001").
    cbn. split.
    + rewrite map_app. destruct r; reflexivity.
    + intros H. contradiction.
  - destruct (nth_error (Legacy.relays s) i) as [rl |]; [| discriminate].
    destruct (Legacy.r_status rl); try discriminate.
    destruct r as [err |]; injection Hstep as <-; cbn;
      rewrite legacy_set_status_same, app_nil_r;
      (split; [reflexivity | intros H; contradiction]).
  - destruct (nth_error (Legacy.relays s) i) as [rl |] eqn:Hnth;
      [| discriminate].
    destruct (Legacy.r_status rl); try discriminate.
    destruct (Legacy.r_conn rl) eqn:Hconn; [discriminate |].
    injection Hstep as <-. cbn. rewrite app_nil_r.
    split; [reflexivity |]. intros _. split; [reflexivity |].
    exists rl. split; [eapply nth_error_In; exact Hnth | exact Hconn].
Qed.

Lemma legacy_answers_In (evs : list Legacy.Event) (r : error + Conn) :
  In r (Legacy.answers evs) -> In (Legacy.LvAccept r) evs.
Proof.
  induction evs as [| ev evs IH]; [intros [] |].
  destruct ev as [r' | i r' | i]; cbn; intros Hin.
  - destruct Hin as [-> | Hin]; [left; reflexivity | right; auto].
  - right. auto.
  - right. auto.
Qed.

Lemma legacy_main_run_relays (evs : list Legacy.Event) :
  forall s s',
    Legacy.main_run evs s = Some s' ->
    map (fun rl => (Legacy.r_backend rl, Legacy.r_conn rl))
      (Legacy.relays s')
    = (map (fun rl => (Legacy.r_backend rl, Legacy.r_conn rl))
         (Legacy.relays s)
         ++ map Legacy.started (Legacy.answers evs))%list
    /\ (Legacy.panicked s' <> None ->
        Legacy.panicked s' = Legacy.panicked s
        \/ (Legacy.panicked s' = Some Legacy.nil_dereference
            /\ exists rl,
                 In rl (Legacy.relays s') /\ Legacy.r_conn rl = None)).
Proof.
  induction evs as [| ev evs IH]; intros s s' Hrun; cbn in Hrun.
  - injection Hrun as <-. cbn. rewrite app_nil_r.
    split; [reflexivity | intros _; left; reflexivity].
  - destruct (Legacy.main_step ev s) as [s1 |] eqn:Hstep; [| discriminate].
    destruct (legacy_main_step_relays _ _ _ Hstep) as [Hr1 Hp1].
    destruct (IH _ _ Hrun) as [Hr Hp].
    assert (Hans : Legacy.answers (ev :: evs)
                   = (Legacy.answers [ev] ++ Legacy.answers evs)%list).
    { destruct ev; reflexivity. }
    split.
    + rewrite Hr, Hr1, Hans, map_app, app_assoc. reflexivity.
    + intros Hdead. right.
      destruct (Hp Hdead) as [Hsame | Hnil]; [| exact Hnil].
      (* a dead process takes no step: the run ended at s1 *)
      assert (Hd1 : Legacy.panicked s1 <> None) by congruence.
      destruct evs as [| ev' evs'].
      * cbn in Hrun. injection Hrun as <-.
        destruct (Hp1 Hd1) as (Hmsg & rl & Hin & Hconn).
        split; [exact Hmsg |].
        assert (Hmem :
          In (Legacy.r_backend rl, Legacy.r_conn rl)
            (map (fun rl => (Legacy.r_backend rl, Legacy.r_conn rl))
               (Legacy.relays s1))).
        { rewrite Hr1. apply in_or_app. left.
          apply (in_map (fun rl => (Legacy.r_backend rl, Legacy.r_conn rl))).
          exact Hin. }
        apply in_map_iff in Hmem. destruct Hmem as (rl' & Heq & Hin').
        exists rl'. split; [exact Hin' |].
        injection Heq as _ Hc. congruence.
      * cbn in Hrun. unfold Legacy.main_step in Hrun.
        destruct (Legacy.panicked s1); [discriminate | contradiction].
Qed.

(** X18.  The earlier program's process.  Every answer of
    [listener.Accept()], a failed one included, starts a relay to the
    first server, a failed one with the nil connection.  The process dies
    of nothing but the nil dereference in a relay a failed accept
    started; and every failed accept can kill it that way: once that
    relay's dial succeeds, its copy panics. *)
Theorem legacy_main_relays_every_accept (evs : list Legacy.Event)
  (s : Legacy.MainState) :
  Legacy.main_run evs Legacy.main_init = Some s ->
  map (fun rl => (Legacy.r_backend rl, Legacy.r_conn rl)) (Legacy.relays s)
  = map (fun r : error + Conn =>
           ("localhost:5001",
            match r with inl _ => None | inr conn => Some conn end))
      (Legacy.answers evs)
  /\ (Legacy.panicked s <> None ->
      Legacy.panicked s
      = Some "runtime error: invalid memory address or nil pointer dereference"
      /\ exists err, In (Legacy.LvAccept (inl err)) evs)
  /\ (Legacy.panicked s = None ->
      forall err, exists s',
        Legacy.main_run
          (evs ++ [Legacy.LvAccept (inl err);
                   Legacy.LvDial (List.length (Legacy.relays s)) None;
                   Legacy.LvCopy (List.length (Legacy.relays s))])
          Legacy.main_init = Some s'
        /\ Legacy.panicked s'
           = Some "runtime error: invalid memory address or nil pointer dereference").
Proof.
  intros Hrun.
  destruct (legacy_main_run_relays evs _ _ Hrun) as [Hr0 Hp].
  assert (Hr :
    map (fun rl => (Legacy.r_backend rl, Legacy.r_conn rl)) (Legacy.relays s)
    = map Legacy.started (Legacy.answers evs)) by exact Hr0.
  split; [exact Hr | split].
  - intros Hdead.
    destruct (Hp Hdead) as [Hsame | (Hmsg & rl & Hin & Hconn)];
      [cbn in Hsame; congruence |].
    split; [exact Hmsg |].
    assert (Hmem :
      In (Legacy.r_backend rl, Legacy.r_conn rl)
        (map Legacy.started (Legacy.answers evs))).
    { rewrite <- Hr.
      apply (in_map (fun rl => (Legacy.r_backend rl, Legacy.r_conn rl))).
      exact Hin. }
    apply in_map_iff in Hmem. destruct Hmem as (r & Heq & Hans).
    destruct r as [err | conn].
    + exists err. apply legacy_answers_In. exact Hans.
    + unfold Legacy.started in Heq. injection Heq as _ Hc. congruence.
  - intros Halive err.
    assert (Happ : forall evs1 evs2 s0 s1,
      Legacy.main_run evs1 s0 = Some s1 ->
      Legacy.main_run (evs1 ++ evs2) s0 = Legacy.main_run evs2 s1).
    { induction evs1 as [| e evs1 IH1]; intros evs2 s0 s1 H0; cbn in H0 |- *.
      - injection H0 as <-. reflexivity.
      - destruct (Legacy.main_step e s0); [| discriminate].
        apply IH1. exact H0. }
    rewrite (Happ _ _ _ _ Hrun).
    assert (Hnth : forall (l : list Legacy.Relay) x,
      nth_error (l ++ [x]) (List.length l) = Some x).
    { induction l as [| y l IHl]; intros x; [reflexivity | exact (IHl x)]. }
    assert (Hset : forall (l : list Legacy.Relay) x st,
      nth_error (Legacy.set_status (List.length l) st (l ++ [x]))
        (List.length l)
      = Some (Legacy.mkRelay (Legacy.r_backend x) (Legacy.r_conn x) st)).
    { induction l as [| y l IHl]; intros x st; [reflexivity |].
      exact (IHl x st). }
    cbn [Legacy.main_run]. unfold Legacy.main_step at 1.
    rewrite Halive. unfold Legacy.accept_body.
    change Legacy.chooseBackend with (@Ok string "localhost:5001").
    cbn [Legacy.relays Legacy.out Legacy.panicked].
    unfold Legacy.main_step at 1.
    cbn [Legacy.relays Legacy.out Legacy.panicked].
    rewrite Hnth. cbn [Legacy.r_status].
    unfold Legacy.main_step at 1.
    cbn [Legacy.relays Legacy.out Legacy.panicked].
    rewrite Hset. cbn [Legacy.r_status Legacy.r_conn].
    eexists. split; reflexivity.
Qed.

Lemma legacy_main_relays_every_accept_witness :
  exists s,
    Legacy.main_run
      [Legacy.LvAccept (inr sampleConn); Legacy.LvAccept (inl tooManyFiles);
       Legacy.LvDial 1 None; Legacy.LvCopy 1]
      Legacy.main_init = Some s
    /\ Legacy.panicked s
       = Some "runtime error: invalid memory address or nil pointer dereference"
    /\ map (fun rl => (Legacy.r_backend rl, Legacy.r_conn rl))
         (Legacy.relays s)
       = [("localhost:5001", Some sampleConn); ("localhost:5001", None)].
Proof.
  eexists. split; [reflexivity |].
  destruct (legacy_main_relays_every_accept
              [Legacy.LvAccept (inr sampleConn);
               Legacy.LvAccept (inl tooManyFiles);
               Legacy.LvDial 1 None; Legacy.LvCopy 1] _ eq_refl)
    as (Hr & Hp & _).
  split; [| exact Hr].
  apply Hp. discriminate.
Defined.
